(** * Verification of the audit evidence-gathering pipeline ([auditor/run_audit.py])

    The development embeds the four core routines of the auditor
    ([detect_proxy_and_impl], [expand_sources], [grep_patterns], [scan_logs])
    and the glue of [main] that selects the block range and the source-fetch
    target, and proves the properties the design document states about them.

    Conventions of the embedding:
    - a Python [str] is a list of Unicode code points ([Z]); [lit] injects a
      literal of ASCII text; [bytes] is a list of [Byte.byte];
    - a call that may raise returns an [outcome] ([Returned] or [Raised]);
    - the JSON-RPC node, the explorer and the table of the Unicode database
      that says which non-ASCII characters are alphanumeric are parameters;
      the library routines the script calls on its data ([json.loads],
      [re.search], [Web3.keccak], [Web3.to_checksum_address], the [str]
      methods) are written out.

    Outside the model: argument parsing, the Slither run and the report
    file; failures of the file system while the sources are written (a
    unit records what [expand_sources] writes and where, and reading it back
    returns that text); the interpreter's limits on recursion depth and on
    the number of digits of an integer literal in [json.loads]. *)

From Stdlib Require Import Strings.String Strings.Ascii Strings.Byte ZArith List Bool Lia.
Import ListNotations.
Local Open Scope Z_scope.
Set Warnings "-register-all".

(** ** Python values *)

Module Py.

Definition char := Z.
Definition str := list char.
Definition bytes := list Byte.byte.

Definition byte_val (b : Byte.byte) : Z := Z.of_N (Byte.to_N b).

Definition byte_of_Z (z : Z) : Byte.byte :=
  match Byte.of_N (Z.to_N z) with
  | Some b => b
  | None => Byte.x00
  end.

Definition lit (s : string) : str :=
  map (fun a => Z.of_N (N_of_ascii a)) (list_ascii_of_string s).
Arguments lit s%_string.

(** A literal in which every apostrophe stands for a double quotation mark. *)
Definition qlit (s : string) : str :=
  map (fun c => if c =? 39 then 34 else c) (lit s).
Arguments qlit s%_string.

Inductive exn := ValueError | IndexError | AttributeError | TypeError | ProviderError.

Inductive outcome (A : Type) :=
| Returned (a : A)
| Raised (e : exn).
Arguments Returned {A} a.
Arguments Raised {A} e.

Definition bind {A B} (m : outcome A) (k : A -> outcome B) : outcome B :=
  match m with
  | Returned a => k a
  | Raised e => Raised e
  end.

Fixpoint str_eqb (a b : str) : bool :=
  match a, b with
  | [], [] => true
  | x :: a', y :: b' => (x =? y) && str_eqb a' b'
  | _, _ => false
  end.

(** [s.startswith(p)] *)
Fixpoint startswith (p s : str) : bool :=
  match p, s with
  | [], _ => true
  | x :: p', y :: s' => (x =? y) && startswith p' s'
  | _ :: _, [] => false
  end.

(** [s.endswith(p)] *)
Definition endswith (p s : str) : bool := startswith (rev p) (rev s).

(** [needle in hay] *)
Fixpoint contains (needle hay : str) : bool :=
  startswith needle hay ||
  match hay with
  | [] => false
  | _ :: hay' => contains needle hay'
  end.

(** [Py_UNICODE_ISSPACE]: the characters removed by [str.strip()] and
    matched by [\s] in a [str] pattern. *)
Definition isspace (c : char) : bool :=
  ((9 <=? c) && (c <=? 13)) || ((28 <=? c) && (c <=? 32)) ||
  (c =? 133) || (c =? 160) || (c =? 5760) ||
  ((8192 <=? c) && (c <=? 8202)) ||
  (c =? 8232) || (c =? 8233) || (c =? 8239) || (c =? 8287) || (c =? 12288).

Fixpoint lstrip (s : str) : str :=
  match s with
  | c :: s' => if isspace c then lstrip s' else s
  | [] => []
  end.

Definition rstrip (s : str) : str := rev (lstrip (rev s)).

(** [s.strip()] *)
Definition strip (s : str) : str := rstrip (lstrip s).

(** [s[1:-1]] *)
Definition slice_1_m1 (s : str) : str := removelast (tl s).

(** [xs[lo:hi]] for non-negative bounds *)
Definition slice {A} (lo hi : nat) (xs : list A) : list A :=
  firstn (hi - lo) (skipn lo xs).

(** [b[-n:]] for [n > 0] *)
Definition last_n {A} (n : nat) (xs : list A) : list A :=
  skipn (List.length xs - n) xs.

(** [sep.join(xs)] *)
Fixpoint join (sep : str) (xs : list str) : str :=
  match xs with
  | [] => []
  | [x] => x
  | x :: xs' => x ++ sep ++ join sep xs'
  end.

(** Line boundaries of [str.splitlines()]. *)
Definition is_linebreak (c : char) : bool :=
  ((10 <=? c) && (c <=? 13)) || ((28 <=? c) && (c <=? 30)) ||
  (c =? 133) || (c =? 8232) || (c =? 8233).

(** [s.splitlines()]: a carriage return followed by a line feed is one
    boundary, and a trailing boundary opens no further line. *)
Fixpoint splitlines (s : str) : list str :=
  match s with
  | [] => []
  | c :: rest =>
      if is_linebreak c then
        [] :: match rest with
              | c' :: rest' =>
                  if (c =? 13) && (c' =? 10) then splitlines rest'
                  else splitlines rest
              | [] => []
              end
      else
        match splitlines rest with
        | [] => [[c]]
        | l :: ls => (c :: l) :: ls
        end
  end.

(** [enumerate(xs, start)] *)
Fixpoint enumerate {A} (start : nat) (xs : list A) : list (nat * A) :=
  match xs with
  | [] => []
  | x :: xs' => (start, x) :: enumerate (S start) xs'
  end.

(** Decimal rendering of a non-negative index, as [f"{i}"] prints it. *)
Definition digit_char (d : nat) : char := 48 + Z.of_nat d.

Fixpoint dec_digits (fuel n : nat) (acc : str) : str :=
  match fuel with
  | O => acc
  | S fuel' =>
      let acc' := digit_char (n mod 10) :: acc in
      match (n / 10)%nat with
      | O => acc'
      | q => dec_digits fuel' q acc'
      end
  end.

Definition format_nat (n : nat) : str := dec_digits (S n) n [].

Definition hex_digit (d : Z) : char :=
  if d <? 10 then 48 + d else 87 + d.

(** [bytes.hex()] *)
Fixpoint hex (b : bytes) : str :=
  match b with
  | [] => []
  | x :: b' =>
      hex_digit (byte_val x / 16) :: hex_digit (byte_val x mod 16) :: hex b'
  end.

Definition is_lower_hex (c : char) : bool :=
  ((48 <=? c) && (c <=? 57)) || ((97 <=? c) && (c <=? 102)).

Definition is_hex (c : char) : bool :=
  is_lower_hex c || ((65 <=? c) && (c <=? 70)).

Definition ascii_lower (c : char) : char :=
  if (65 <=? c) && (c <=? 90) then c + 32 else c.

Definition ascii_upper (c : char) : char :=
  if (97 <=? c) && (c <=? 122) then c - 32 else c.

Definition hex_value (c : char) : Z :=
  if c <=? 57 then c - 48 else ascii_lower c - 87.

(** [int(s, 16)] on an optional [0x] prefix followed by hex digits. *)
Definition int16 (s : str) : outcome Z :=
  let body :=
    if startswith (lit "0x") s || startswith (lit "0X") s then skipn 2 s else s in
  match body with
  | [] => Raised ValueError
  | _ =>
      if forallb is_hex body
      then Returned (fold_left (fun acc c => acc * 16 + hex_value c) body 0)
      else Raised ValueError
  end.

(** What [Path.read_text] returns for a file holding [s]: text mode reads
    with universal newlines. *)
Fixpoint universal_newlines (s : str) : str :=
  match s with
  | [] => []
  | c :: rest =>
      if c =? 13 then
        10 :: match rest with
              | c' :: rest' =>
                  if c' =? 10 then universal_newlines rest'
                  else universal_newlines rest
              | [] => []
              end
      else c :: universal_newlines rest
  end.

(** Truthiness of an optional string, as used by [x or y]. *)
Definition or_str (a : option str) (b : str) : str :=
  match a with
  | Some (c :: s) => c :: s
  | _ => b
  end.

(** Truthiness of an optional integer, as used by [x or y]. *)
Definition or_int (a : option Z) (b : Z) : Z :=
  match a with
  | Some n => if n =? 0 then b else n
  | None => b
  end.

End Py.

(** ** Keccak-256, the hash behind [Web3.keccak] *)

Module Keccak.

Definition lane := Z.
Definition mask64 : Z := 2 ^ 64 - 1.

Definition rotl (x : lane) (n : Z) : lane :=
  Z.land (Z.lor (Z.shiftl x n) (Z.shiftr x (64 - n))) mask64.

Definition lane_at (st : list lane) (x y : nat) : lane :=
  nth (x mod 5 + 5 * (y mod 5))%nat st 0.

Definition coords : list (nat * nat) :=
  flat_map (fun y => map (fun x => (x, y)) (seq 0 5)) (seq 0 5).

Definition rotation_offsets : list Z :=
  [ 0;  1; 62; 28; 27;
   36; 44;  6; 55; 20;
    3; 10; 43; 25; 39;
   41; 45; 15; 21;  8;
   18;  2; 61; 56; 14].

Definition round_constants : list Z :=
  [0x0000000000000001; 0x0000000000008082; 0x800000000000808A;
   0x8000000080008000; 0x000000000000808B; 0x0000000080000001;
   0x8000000080008081; 0x8000000000008009; 0x000000000000008A;
   0x0000000000000088; 0x0000000080008009; 0x000000008000000A;
   0x000000008000808B; 0x800000000000008B; 0x8000000000008089;
   0x8000000000008003; 0x8000000000008002; 0x8000000000000080;
   0x000000000000800A; 0x800000008000000A; 0x8000000080008081;
   0x8000000000008080; 0x0000000080000001; 0x8000000080008008].

Definition theta (st : list lane) : list lane :=
  let c := map (fun x => fold_left Z.lxor
                           (map (fun y => lane_at st x y) (seq 0 5)) 0)
               (seq 0 5) in
  let d := map (fun x => Z.lxor (nth ((x + 4) mod 5)%nat c 0)
                                (rotl (nth ((x + 1) mod 5)%nat c 0) 1))
               (seq 0 5) in
  map (fun '(x, y) => Z.lxor (lane_at st x y) (nth x d 0)) coords.

(** The lane written to [(x, y)] comes from [(x + 3 y, x)]. *)
Definition rho_pi (st : list lane) : list lane :=
  map (fun '(x, y) =>
         let sx := ((x + 3 * y) mod 5)%nat in
         let sy := x in
         rotl (lane_at st sx sy) (nth (sx + 5 * sy)%nat rotation_offsets 0))
      coords.

Definition chi (st : list lane) : list lane :=
  map (fun '(x, y) =>
         Z.lxor (lane_at st x y)
                (Z.land (Z.lxor (lane_at st (x + 1) y) mask64)
                        (lane_at st (x + 2) y)))
      coords.

Definition iota (rc : Z) (st : list lane) : list lane :=
  match st with
  | a :: st' => Z.lxor a rc :: st'
  | [] => []
  end.

Definition round (st : list lane) (rc : Z) : list lane :=
  iota rc (chi (rho_pi (theta st))).

Definition keccak_f (st : list lane) : list lane :=
  fold_left round round_constants st.

Fixpoint lane_of_bytes (b : list Z) : lane :=
  match b with
  | [] => 0
  | x :: b' => x + 256 * lane_of_bytes b'
  end.

Fixpoint bytes_of_lane (n : nat) (l : lane) : list Z :=
  match n with
  | O => []
  | S n' => l mod 256 :: bytes_of_lane n' (l / 256)
  end.

Fixpoint lanes_of_bytes (n : nat) (b : list Z) : list lane :=
  match n with
  | O => []
  | S n' => lane_of_bytes (firstn 8 b) :: lanes_of_bytes n' (skipn 8 b)
  end.

Definition rate : nat := 136.

(** Multi-rate padding with the original Keccak domain byte. *)
Definition pad (msg : list Z) : list Z :=
  let q := (rate - length msg mod rate)%nat in
  match q with
  | 1%nat => msg ++ [0x81]
  | _ => msg ++ [0x01] ++ repeat 0 (q - 2) ++ [0x80]
  end.

Fixpoint xor_lanes (st blk : list lane) : list lane :=
  match st, blk with
  | a :: st', b :: blk' => Z.lxor a b :: xor_lanes st' blk'
  | _, _ => st
  end.

Fixpoint absorb (nblocks : nat) (st : list lane) (b : list Z) : list lane :=
  match nblocks with
  | O => st
  | S n =>
      absorb n (keccak_f (xor_lanes st (lanes_of_bytes 17 (firstn rate b))))
             (skipn rate b)
  end.

Definition keccak256 (msg : list Z) : list Z :=
  let p := pad msg in
  let st := absorb (length p / rate) (repeat 0 25) p in
  flat_map (bytes_of_lane 8) (firstn 4 st).

(** [str.encode("utf-8")] of one code point. *)
Definition utf8_encode_char (c : Py.char) : list Z :=
  if c <? 0x80 then [c]
  else if c <? 0x800 then [0xC0 + c / 64; 0x80 + c mod 64]
  else if c <? 0x10000 then
    [0xE0 + c / 4096; 0x80 + (c / 64) mod 64; 0x80 + c mod 64]
  else
    [0xF0 + c / 262144; 0x80 + (c / 4096) mod 64;
     0x80 + (c / 64) mod 64; 0x80 + c mod 64].

(** [Web3.keccak(text=s)]; the script hashes ASCII text only. *)
Definition keccak_text (s : Py.str) : Py.bytes :=
  map Py.byte_of_Z (keccak256 (flat_map utf8_encode_char s)).

End Keccak.

(** ** Address normalisation of the Web3 library *)

Module Eth.
Import Py.

Definition remove_0x_prefix (s : str) : str :=
  if startswith (lit "0x") s || startswith (lit "0X") s then skipn 2 s else s.

Definition checksum_case (c : char) (hash_digit : char) : char :=
  if 7 <? hex_value hash_digit then ascii_upper c else c.

(** EIP-55 casing of forty lower-case hex digits. *)
Definition checksum_encode (body : str) : str :=
  lit "0x" ++
  map (fun '(c, h) => checksum_case c h)
      (combine body (hex (Keccak.keccak_text body))).

(** [Web3.to_checksum_address(value)] on a [str]: the value is an optional
    [0x] prefix and forty hex digits of either case, anything else raises
    [ValueError]. *)
Definition to_checksum_address (value : str) : outcome str :=
  let body := map ascii_lower (remove_0x_prefix value) in
  if (length body =? 40)%nat && forallb is_lower_hex body
  then Returned (checksum_encode body)
  else Raised ValueError.

End Eth.

(** ** [json.loads] *)

Module Json.
Import Py.

(** Decoded documents.  A number keeps its lexeme, an object is the
    insertion-ordered [dict] built from its members. *)
Inductive value :=
| JNull
| JBool (b : bool)
| JNumber (lexeme : str)
| JString (s : str)
| JArray (xs : list value)
| JObject (members : list (str * value)).

Inductive presult (A : Type) :=
| POk (a : A) (rest : str)
| PErr
| PFuel.
Arguments POk {A} a rest.
Arguments PErr {A}.
Arguments PFuel {A}.

(** [d[k] = v] on an insertion-ordered dict. *)
Fixpoint dict_set {V} (k : str) (v : V) (d : list (str * V)) : list (str * V) :=
  match d with
  | [] => [(k, v)]
  | (k', v') :: d' =>
      if str_eqb k k' then (k', v) :: d' else (k', v') :: dict_set k v d'
  end.

(** [d.get(k)] *)
Fixpoint dict_get {V} (k : str) (d : list (str * V)) : option V :=
  match d with
  | [] => None
  | (k', v) :: d' => if str_eqb k k' then Some v else dict_get k d'
  end.

Definition is_ws (c : char) : bool :=
  (c =? 32) || (c =? 9) || (c =? 10) || (c =? 13).

Fixpoint skip_ws (s : str) : str :=
  match s with
  | c :: s' => if is_ws c then skip_ws s' else s
  | [] => []
  end.

Definition is_digit (c : char) : bool := (48 <=? c) && (c <=? 57).

Fixpoint span_digits (s : str) : str * str :=
  match s with
  | c :: s' =>
      if is_digit c then let '(d, r) := span_digits s' in (c :: d, r)
      else ([], s)
  | [] => ([], [])
  end.

(** The scanner state inside a string literal. *)
Inductive sstate :=
| Plain
| Escaped
| Unicode (remaining : nat) (acc : Z).

Definition simple_escape (c : char) : option char :=
  if c =? 34 then Some 34
  else if c =? 92 then Some 92
  else if c =? 47 then Some 47
  else if c =? 98 then Some 8
  else if c =? 102 then Some 12
  else if c =? 110 then Some 10
  else if c =? 114 then Some 13
  else if c =? 116 then Some 9
  else None.

Definition is_high_surrogate (u : Z) : bool := (0xD800 <=? u) && (u <=? 0xDBFF).
Definition is_low_surrogate (u : Z) : bool := (0xDC00 <=? u) && (u <=? 0xDFFF).

Definition join_surrogates (h l : Z) : Z :=
  0x10000 + Z.lor (Z.shiftl (h - 0xD800) 10) (l - 0xDC00).

Definition flush (pending : option Z) (out : str) : str :=
  match pending with
  | Some h => h :: out
  | None => out
  end.

(** [scanstring] after the opening quote, strict mode.  [pending] is a high
    surrogate produced by the previous escape and waiting for an escaped low
    surrogate; [out] is the text decoded so far, reversed. *)
Fixpoint scanstring (st : sstate) (pending : option Z) (out : str) (s : str)
  : presult str :=
  match s with
  | [] => PErr
  | c :: r =>
      match st with
      | Plain =>
          if c =? 34 then POk (rev (flush pending out)) r
          else if c =? 92 then scanstring Escaped pending out r
          else if c <=? 31 then PErr
          else scanstring Plain None (c :: flush pending out) r
      | Escaped =>
          if c =? 117 then scanstring (Unicode 4 0) pending out r
          else match simple_escape c with
               | Some e => scanstring Plain None (e :: flush pending out) r
               | None => PErr
               end
      | Unicode k acc =>
          if is_hex c then
            let u := acc * 16 + hex_value c in
            match k with
            | S (S k') => scanstring (Unicode (S k') u) pending out r
            | _ =>
                match pending with
                | Some h =>
                    if is_low_surrogate u
                    then scanstring Plain None (join_surrogates h u :: out) r
                    else if is_high_surrogate u
                    then scanstring Plain (Some u) (h :: out) r
                    else scanstring Plain None (u :: h :: out) r
                | None =>
                    if is_high_surrogate u
                    then scanstring Plain (Some u) out r
                    else scanstring Plain None (u :: out) r
                end
            end
          else PErr
      end
  end.

(** The number grammar of the scanner: an optional minus sign; a zero or a
    non-zero digit followed by digits; optionally a point and at least one
    digit; optionally an exponent mark, an optional sign and at least one
    digit.  A point or exponent mark that no digit follows is left unread. *)
Definition scan_int (s : str) : option (str * str) :=
  match s with
  | c :: r =>
      if c =? 48 then Some ([c], r)
      else if is_digit c then let '(d, r') := span_digits r in Some (c :: d, r')
      else None
  | [] => None
  end.

Definition scan_frac (s : str) : str * str :=
  match s with
  | c :: r =>
      if c =? 46 then
        match span_digits r with
        | ([], _) => ([], s)
        | (d, r') => (c :: d, r')
        end
      else ([], s)
  | [] => ([], s)
  end.

Definition scan_exp (s : str) : str * str :=
  match s with
  | e :: r =>
      if (e =? 101) || (e =? 69) then
        let '(sign, r1) :=
          match r with
          | c :: r' => if (c =? 43) || (c =? 45) then ([c], r') else ([], r)
          | [] => ([], r)
          end in
        match span_digits r1 with
        | ([], _) => ([], s)
        | (d, r2) => (e :: sign ++ d, r2)
        end
      else ([], s)
  | [] => ([], s)
  end.

Definition scan_number (s : str) : presult value :=
  let '(sign, s1) :=
    match s with
    | c :: r => if c =? 45 then ([c], r) else ([], s)
    | [] => ([], s)
    end in
  match scan_int s1 with
  | None => PErr
  | Some (i, s2) =>
      let '(f, s3) := scan_frac s2 in
      let '(e, s4) := scan_exp s3 in
      POk (JNumber (sign ++ i ++ f ++ e)) s4
  end.

Definition scan_constant (name : str) (v : value) (s : str) : option (presult value) :=
  if startswith name s then Some (POk v (skipn (length name) s)) else None.

(** A constant or a number at the head of [s], whose first character is
    [c]; a constant's first letter that its name does not follow is read as
    the start of a number, and fails as one. *)
Definition scan_atom (c : char) (s : str) : presult value :=
  let constant :=
    if c =? 110 then scan_constant (lit "null") JNull s
    else if c =? 116 then scan_constant (lit "true") (JBool true) s
    else if c =? 102 then scan_constant (lit "false") (JBool false) s
    else if c =? 78 then scan_constant (lit "NaN") (JNumber (lit "NaN")) s
    else if c =? 73 then
      scan_constant (lit "Infinity") (JNumber (lit "Infinity")) s
    else if c =? 45 then
      scan_constant (lit "-Infinity") (JNumber (lit "-Infinity")) s
    else None in
  match constant with
  | Some res => res
  | None => scan_number s
  end.

(** [scan_once]: one document at the head of [s].  Members and elements are
    read by the two loops below; a later duplicate key overwrites. *)
Fixpoint scan_once (fuel : nat) (s : str) : presult value :=
  match fuel with
  | O => PFuel
  | S fuel' =>
      match s with
      | [] => PErr
      | c :: r =>
          if c =? 34 then
            match scanstring Plain None [] r with
            | POk t rest => POk (JString t) rest
            | PErr => PErr
            | PFuel => PFuel
            end
          else if c =? 123 then
            match skip_ws r with
            | c' :: rest =>
                if c' =? 125 then POk (JObject []) rest
                else scan_members fuel' [] (c' :: rest)
            | [] => PErr
            end
          else if c =? 91 then
            match skip_ws r with
            | c' :: rest =>
                if c' =? 93 then POk (JArray []) rest
                else scan_elements fuel' [] (c' :: rest)
            | [] => PErr
            end
          else scan_atom c s
      end
  end

with scan_members (fuel : nat) (acc : list (str * value)) (s : str)
  : presult value :=
  match fuel with
  | O => PFuel
  | S fuel' =>
      match s with
      | [] => PErr
      | q :: r =>
          if negb (q =? 34) then PErr
          else
            match scanstring Plain None [] r with
            | POk key r1 =>
                match skip_ws r1 with
                | [] => PErr
                | colon :: r2 =>
                    if negb (colon =? 58) then PErr
                    else
                      match scan_once fuel' (skip_ws r2) with
                      | POk v r3 =>
                          let acc' := dict_set key v acc in
                          match skip_ws r3 with
                          | [] => PErr
                          | d :: r4 =>
                              if d =? 125 then POk (JObject acc') r4
                              else if d =? 44
                              then scan_members fuel' acc' (skip_ws r4)
                              else PErr
                          end
                      | PErr => PErr
                      | PFuel => PFuel
                      end
                end
            | PErr => PErr
            | PFuel => PFuel
            end
      end
  end

with scan_elements (fuel : nat) (acc : list value) (s : str) : presult value :=
  match fuel with
  | O => PFuel
  | S fuel' =>
      match scan_once fuel' s with
      | POk v r1 =>
          match skip_ws r1 with
          | [] => PErr
          | d :: r2 =>
              if d =? 93 then POk (JArray (rev (v :: acc))) r2
              else if d =? 44 then scan_elements fuel' (v :: acc) (skip_ws r2)
              else PErr
          end
      | PErr => PErr
      | PFuel => PFuel
      end
  end.

(** [json.loads(s)]: one document between optional whitespace; a leading
    byte-order mark, trailing data or any syntax error raises.  The fuel is
    more than the scanner can use on [s] (see [loads_fuel]). *)
Definition loads (s : str) : outcome value :=
  match scan_once (S (2 * length s)) (skip_ws s) with
  | POk v rest =>
      match skip_ws rest with
      | [] => Returned v
      | _ => Raised ValueError
      end
  | _ => Raised ValueError
  end.

End Json.


(** ** [re.search] on the pattern syntax the script uses *)

Module Re.
Import Py.

Inductive atom :=
| Lit (c : char)
| Space.

Inductive item :=
| One (a : atom)
| Star (a : atom)
| Plus (a : atom)
| WordBoundary.

Definition regex := list item.

Definition is_special (c : char) : bool :=
  existsb (Z.eqb c) (lit ".^$*+?{}[]\|()").

Definition quantify (a : atom) (rest : str) : item * str :=
  match rest with
  | 42 :: rest' => (Star a, rest')
  | 43 :: rest' => (Plus a, rest')
  | _ => (One a, rest)
  end.

(** Patterns are sequences of literal characters, [\(], [\s] and [\b], the
    first three optionally followed by [*] or [+]; nothing else compiles. *)
Fixpoint compile (fuel : nat) (p : str) : option regex :=
  match fuel with
  | O => None
  | S fuel' =>
      match p with
      | [] => Some []
      | 92 :: 98 :: rest =>
          option_map (cons WordBoundary) (compile fuel' rest)
      | 92 :: c :: rest =>
          if (c =? 115) || is_special c then
            let '(it, rest') := quantify (if c =? 115 then Space else Lit c) rest in
            option_map (cons it) (compile fuel' rest')
          else None
      | c :: rest =>
          if is_special c then None
          else
            let '(it, rest') := quantify (Lit c) rest in
            option_map (cons it) (compile fuel' rest')
      end
  end.

Section Matcher.

(** [Py_UNICODE_ISALNUM] outside ASCII, a table of the Unicode database. *)
Variable uni_alnum : char -> bool.

Definition is_word (c : char) : bool :=
  if c <? 128 then
    ((48 <=? c) && (c <=? 57)) || ((65 <=? c) && (c <=? 90)) ||
    ((97 <=? c) && (c <=? 122)) || (c =? 95)
  else uni_alnum c.

Definition word_before (prev : option char) : bool :=
  match prev with
  | Some c => is_word c
  | None => false
  end.

Definition word_after (s : str) : bool :=
  match s with
  | c :: _ => is_word c
  | [] => false
  end.

Definition atom_matches (a : atom) (c : char) : bool :=
  match a with
  | Lit c' => c' =? c
  | Space => isspace c
  end.

(** Does the pattern match at the head of [s], the character before it
    being [prev]? *)
Fixpoint match_here (r : regex) (prev : option char) (s : str) {struct r} : bool :=
  match r with
  | [] => true
  | One a :: r' =>
      match s with
      | c :: s' => atom_matches a c && match_here r' (Some c) s'
      | [] => false
      end
  | Star a :: r' =>
      (fix star (prev : option char) (s : str) {struct s} : bool :=
         match s with
         | c :: s' =>
             (atom_matches a c && star (Some c) s') || match_here r' prev s
         | [] => match_here r' prev []
         end) prev s
  | Plus a :: r' =>
      match s with
      | c :: s' =>
          atom_matches a c &&
          (fix star (prev : option char) (s : str) {struct s} : bool :=
             match s with
             | c :: s' =>
                 (atom_matches a c && star (Some c) s') || match_here r' prev s
             | [] => match_here r' prev []
             end) (Some c) s'
      | [] => false
      end
  | WordBoundary :: r' =>
      xorb (word_before prev) (word_after s) && match_here r' prev s
  end.

Fixpoint search_from (r : regex) (prev : option char) (s : str) : bool :=
  match_here r prev s ||
  match s with
  | c :: s' => search_from r (Some c) s'
  | [] => false
  end.

(** Truth value of [re.search(pattern, s)], for a pattern that compiles;
    the three patterns of the script do. *)
Definition search (pattern s : str) : bool :=
  match compile (S (length pattern)) pattern with
  | Some r => search_from r None s
  | None => false
  end.

End Matcher.

End Re.

(** ** The auditor *)

Module Auditor.
Import Py.

Definition EIP1967_IMPLEMENTATION_SLOT : str :=
  lit "0x360894a13ba1a3210667c828492db98dca3e2076cc3735a920a3ca505d382bbc".

(** The number [int(EIP1967_IMPLEMENTATION_SLOT, 16)] evaluates to. *)
Definition implementation_slot_number : Z :=
  0x360894a13ba1a3210667c828492db98dca3e2076cc3735a920a3ca505d382bbc.

Definition TRANSFER_TOPIC : str :=
  hex (Keccak.keccak_text (lit "Transfer(address,address,uint256)")).
Definition BLACKLISTED_TOPIC : str :=
  hex (Keccak.keccak_text (lit "Blacklisted(address)")).
Definition UPGR_TOPIC : str :=
  hex (Keccak.keccak_text (lit "Upgraded(address)")).

Definition ROLE_SETTERS : list str :=
  [lit "updateOracle"; lit "updateBlacklister"; lit "updatePauser";
   lit "updateMasterMinter"; lit "updateRescuer"].

(** *** [expand_sources] *)

(** The explorer record, reduced to the two fields the expander reads;
    [None] is a missing key. *)
Record item := {
  SourceCode : option str;
  ContractName : option str
}.

(** One file written below [out_dir]: the path appended to [paths], taken
    relative to [out_dir], and the text written there. *)
Record SourceUnit := {
  path : str;
  text : str
}.

Fixpoint try_candidates (cands : list (option str)) : Json.value :=
  match cands with
  | [] => Json.JNull
  | None :: rest => try_candidates rest
  | Some [] :: rest => try_candidates rest
  | Some cand :: rest =>
      match Json.loads cand with
      | Returned v => v
      | Raised _ => try_candidates rest
      end
  end.

Definition try_json (s : str) : Json.value :=
  try_candidates
    [Some s;
     if startswith (lit "{{") (strip s) && endswith (lit "}}") (strip s)
     then Some (slice_1_m1 (strip s)) else None].

(** [meta.get("content", "")] followed by [p.write_text(content)]. *)
Definition write_entry (rel : str) (meta : Json.value) : outcome SourceUnit :=
  match meta with
  | Json.JObject fields =>
      match Json.dict_get (lit "content") fields with
      | None => Returned {| path := rel; text := [] |}
      | Some (Json.JString content) => Returned {| path := rel; text := content |}
      | Some _ => Raised TypeError
      end
  | _ => Raised AttributeError
  end.

Fixpoint write_entries (entries : list (str * Json.value)) (paths : list SourceUnit)
  : outcome (list SourceUnit) :=
  match entries with
  | [] => Returned paths
  | (rel, meta) :: rest =>
      bind (write_entry rel meta) (fun p => write_entries rest (paths ++ [p]))
  end.

Definition fallback_name (it : item) : str :=
  match strip (or_str (ContractName it) (lit "Contract")) with
  | [] => lit "Contract"
  | name => name
  end.

Definition expand_sources (it : item) : outcome (list SourceUnit) :=
  let src := match SourceCode it with Some s => s | None => [] end in
  let paths := [] in
  match src with
  | [] => Returned paths
  | _ =>
      let fallback :=
        Returned (paths ++ [{| path := fallback_name it ++ lit ".sol"; text := src |}]) in
      match try_json src with
      | Json.JObject members =>
          match Json.dict_get (lit "sources") members with
          | Some (Json.JObject entries) => write_entries entries paths
          | Some _ => Raised AttributeError
          | None => fallback
          end
      | _ => fallback
      end
  end.

(** *** [grep_patterns] *)

Record Findings := {
  init_functions : list str;
  unprotected_inits : list str;
  unprotected_role_setters : list str;
  internal_transfer_calls : list str
}.

Definition no_findings : Findings :=
  {| init_functions := []; unprotected_inits := [];
     unprotected_role_setters := []; internal_transfer_calls := [] |}.

Definition add_init (f : Findings) (x : str) : Findings :=
  {| init_functions := init_functions f ++ [x];
     unprotected_inits := unprotected_inits f;
     unprotected_role_setters := unprotected_role_setters f;
     internal_transfer_calls := internal_transfer_calls f |}.

Definition add_unprotected_init (f : Findings) (x : str) : Findings :=
  {| init_functions := init_functions f;
     unprotected_inits := unprotected_inits f ++ [x];
     unprotected_role_setters := unprotected_role_setters f;
     internal_transfer_calls := internal_transfer_calls f |}.

Definition add_role_setter (f : Findings) (x : str) : Findings :=
  {| init_functions := init_functions f;
     unprotected_inits := unprotected_inits f;
     unprotected_role_setters := unprotected_role_setters f ++ [x];
     internal_transfer_calls := internal_transfer_calls f |}.

Definition add_transfer_call (f : Findings) (x : str) : Findings :=
  {| init_functions := init_functions f;
     unprotected_inits := unprotected_inits f;
     unprotected_role_setters := unprotected_role_setters f;
     internal_transfer_calls := internal_transfer_calls f ++ [x] |}.

(** [f"L{i}: {line.strip()}"] *)
Definition finding (i : nat) (line : str) : str :=
  lit "L" ++ format_nat i ++ lit ": " ++ strip line.

(** ["\n".join(lines[i - 1:i + 3])] *)
Definition context (lines : list str) (i : nat) : str :=
  join [10] (slice (i - 1) (i + 3) lines).

Section Scanner.

Variable uni_alnum : char -> bool.

Definition is_init_line (line : str) : bool :=
  Re.search uni_alnum (lit "\bfunction\s+initialize\b") line ||
  contains (lit "initializeV2_1") line ||
  contains (lit "initializeV2(") line.

Definition is_setter_call (setter line : str) : bool :=
  Re.search uni_alnum (lit "\b" ++ setter ++ lit "\s*\(") line.

Definition scan_init (lines : list str) (i : nat) (line : str) (f : Findings)
  : Findings :=
  if is_init_line line then
    let f := add_init f (finding i line) in
    if negb (contains (lit "onlyOwner") line) then
      if negb (contains (lit "onlyOwner") (context lines i))
      then add_unprotected_init f (finding i line)
      else f
    else f
  else f.

Definition scan_transfer (i : nat) (line : str) (f : Findings) : Findings :=
  if Re.search uni_alnum (lit "\b_transfer\s*\(") line
  then add_transfer_call f (finding i line)
  else f.

Definition scan_setter (lines : list str) (i : nat) (line : str)
                       (f : Findings) (setter : str) : Findings :=
  if is_setter_call setter line then
    if negb (contains (lit "onlyOwner") (context lines i))
    then add_role_setter f (finding i line)
    else f
  else f.

(** The body of the loop over [enumerate(lines, 1)]. *)
Definition scan_line (lines : list str) (f : Findings) (il : nat * str) : Findings :=
  let '(i, line) := il in
  let f := scan_init lines i line f in
  let f := scan_transfer i line f in
  fold_left (scan_setter lines i line) ROLE_SETTERS f.

Definition grep_patterns (text : str) : Findings :=
  let lines := splitlines text in
  fold_left (scan_line lines) (enumerate 1 lines) no_findings.

End Scanner.

(** *** [detect_proxy_and_impl] and [scan_logs] *)

(** A log record as the node returns it. *)
Record RawLog := {
  blockNumber : Z;
  transactionHash : bytes;
  topics : list bytes
}.

(** The dictionary kept for a classified log. *)
Record LogEvent := {
  block : Z;
  tx : str;
  event_topics : list str
}.

Record Logs := {
  transfer : list LogEvent;
  blacklisted : list LogEvent;
  upgraded : list LogEvent
}.

Definition log_event (l : RawLog) : LogEvent :=
  {| block := blockNumber l;
     tx := hex (transactionHash l);
     event_topics := map hex (topics l) |}.

(** The [if]/[elif] chain on the first topic. *)
Definition classify (acc : Logs) (l : RawLog) : outcome Logs :=
  match topics l with
  | [] => Raised IndexError
  | first :: _ =>
      let t0 := hex first in
      if str_eqb t0 TRANSFER_TOPIC then
        Returned {| transfer := transfer acc ++ [log_event l];
                    blacklisted := blacklisted acc;
                    upgraded := upgraded acc |}
      else if str_eqb t0 BLACKLISTED_TOPIC then
        Returned {| transfer := transfer acc;
                    blacklisted := blacklisted acc ++ [log_event l];
                    upgraded := upgraded acc |}
      else if str_eqb t0 UPGR_TOPIC then
        Returned {| transfer := transfer acc;
                    blacklisted := blacklisted acc;
                    upgraded := upgraded acc ++ [log_event l] |}
      else Returned acc
  end.

Fixpoint classify_all (logs : list RawLog) (acc : Logs) : outcome Logs :=
  match logs with
  | [] => Returned acc
  | l :: rest => bind (classify acc l) (classify_all rest)
  end.

(** [range(start, stop, step)] *)
Definition range (start stop step : Z) : outcome (list Z) :=
  if step =? 0 then Raised ValueError
  else
    let '(lo, hi, width) :=
      if 0 <? step then (start, stop, step) else (stop, start, - step) in
    let n := if hi <=? lo then 0 else (hi - lo - 1) / width + 1 in
    Returned (map (fun k => start + Z.of_nat k * step) (seq 0 (Z.to_nat n))).

Section Node.

(** The JSON-RPC node: [w3.eth.get_storage_at(address, slot)],
    [w3.eth.get_logs] on an address and an inclusive block range, and
    [w3.eth.block_number]. *)
Variable get_storage_at : str -> Z -> outcome bytes.
Variable get_logs : str -> Z -> Z -> outcome (list RawLog).
Variable block_number : outcome Z.

(** The body of [try] in [detect_proxy_and_impl]; [None] is falling out of
    the [if]. *)
Definition read_implementation (proxy_addr : str) : outcome (option str) :=
  bind (Eth.to_checksum_address proxy_addr) (fun a =>
  bind (int16 EIP1967_IMPLEMENTATION_SLOT) (fun slot =>
  bind (get_storage_at a slot) (fun raw =>
  match raw with
  | [] => Returned None
  | _ =>
      if (length raw =? 32)%nat then
        bind (Eth.to_checksum_address (hex (last_n 20 raw)))
             (fun impl => Returned (Some impl))
      else Returned None
  end))).

Definition detect_proxy_and_impl (proxy_addr : str) : option str :=
  match read_implementation proxy_addr with
  | Returned (Some impl) => Some impl
  | Returned None => None
  | Raised _ => None
  end.

(** The loop of [scan_logs] over the window starts.  The first component is
    the list of [(fromBlock, toBlock)] queries sent to the node, in order. *)
Fixpoint scan_windows (addr : str) (to_block step : Z) (starts : list Z)
                      (acc : Logs) : list (Z * Z) * outcome Logs :=
  match starts with
  | [] => ([], Returned acc)
  | start :: rest =>
      let end_ := Z.min to_block (start + step - 1) in
      match get_logs addr start end_ with
      | Raised _ =>
          let '(queries, res) := scan_windows addr to_block step rest acc in
          ((start, end_) :: queries, res)
      | Returned logs =>
          match classify_all logs acc with
          | Returned acc' =>
              let '(queries, res) := scan_windows addr to_block step rest acc' in
              ((start, end_) :: queries, res)
          | Raised e => ([(start, end_)], Raised e)
          end
      end
  end.

Definition no_logs : Logs :=
  {| transfer := []; blacklisted := []; upgraded := [] |}.

Definition scan_logs (address : str) (from_block to_block step : Z)
  : list (Z * Z) * outcome Logs :=
  match Eth.to_checksum_address address with
  | Raised e => ([], Raised e)
  | Returned addr =>
      match range from_block (to_block + 1) step with
      | Raised e => ([], Raised e)
      | Returned starts => scan_windows addr to_block step starts no_logs
      end
  end.

(** *** [main] *)

Record Args := {
  arg_address : str;
  arg_chain : str;
  arg_from_block : option Z;
  arg_to_block : option Z
}.

(** What one run hands on: the block range scanned, the resolved
    implementation, the address whose verified source is fetched and
    expanded, the heuristic findings and the classified logs. *)
Record Audit := {
  audit_address : str;
  audit_from_block : Z;
  audit_to_block : Z;
  audit_implementation : option str;
  audit_target : str;
  audit_sources : list SourceUnit;
  audit_grep : Findings;
  audit_queries : list (Z * Z);
  audit_logs : Logs
}.

Section Main.

Variable uni_alnum : char -> bool.

(** [fetch_source_from_etherscan(target, chain, api_key)] *)
Variable fetch_source_from_etherscan : str -> str -> outcome item.

Definition main (args : Args) : outcome Audit :=
  bind (Eth.to_checksum_address (arg_address args)) (fun address =>
  bind block_number (fun latest =>
  let from_block := or_int (arg_from_block args) (Z.max 0 (latest - 200000)) in
  let to_block := or_int (arg_to_block args) latest in
  let impl := detect_proxy_and_impl address in
  let target := or_str impl address in
  bind (fetch_source_from_etherscan target (arg_chain args)) (fun it =>
  bind (expand_sources it) (fun sources =>
  let concat :=
    join [10; 10] (map (fun u => universal_newlines (text u)) sources) in
  let grep := grep_patterns uni_alnum concat in
  let '(queries, logs) := scan_logs address from_block to_block 50000 in
  bind logs (fun logs =>
  Returned {| audit_address := address;
              audit_from_block := from_block;
              audit_to_block := to_block;
              audit_implementation := impl;
              audit_target := target;
              audit_sources := sources;
              audit_grep := grep;
              audit_queries := queries;
              audit_logs := logs |}))))).

End Main.

End Node.

End Auditor.

(** ** Vocabulary of the statements *)

Module Spec.
Import Py Auditor.

(** The query sent for the window that starts at [start]. *)
Definition window (to_block step start : Z) : Z * Z :=
  (start, Z.min to_block (start + step - 1)).


(** The logs the node returned for the queries [ws]; a failed query
    contributes none. *)
Definition retrieved (get_logs : str -> Z -> Z -> outcome (list RawLog))
           (addr : str) (ws : list (Z * Z)) : list RawLog :=
  flat_map (fun w => match get_logs addr (fst w) (snd w) with
                     | Returned logs => logs
                     | Raised _ => []
                     end) ws.

(** Is [sig] the first topic of the event? *)
Definition event_is (sig : str) (ev : LogEvent) : bool :=
  match event_topics ev with
  | first :: _ => str_eqb first sig
  | [] => false
  end.

(** The three lists after the events of [logs] were appended to [acc]. *)
Definition extend (acc : Logs) (logs : list RawLog) : Logs :=
  {| transfer :=
       transfer acc ++ filter (event_is TRANSFER_TOPIC) (map log_event logs);
     blacklisted :=
       blacklisted acc ++ filter (event_is BLACKLISTED_TOPIC) (map log_event logs);
     upgraded :=
       upgraded acc ++ filter (event_is UPGR_TOPIC) (map log_event logs) |}.

(** The text written for a [sources] entry: its [content], or nothing when
    the entry has none. *)
Definition entry_text (meta : Json.value) : str :=
  match meta with
  | Json.JObject fields =>
      match Json.dict_get (lit "content") fields with
      | Some (Json.JString content) => content
      | _ => []
      end
  | _ => []
  end.

Definition unit_of (entry : str * Json.value) : SourceUnit :=
  {| path := fst entry; text := entry_text (snd entry) |}.

(** An entry of the shape [path -> {content}]: an object whose [content],
    when present, is a string. *)
Definition entry_well_formed (meta : Json.value) : Prop :=
  exists fields,
    meta = Json.JObject fields /\
    (Json.dict_get (lit "content") fields = None \/
     exists content,
       Json.dict_get (lit "content") fields = Some (Json.JString content)).

(** Does the line carry the guard marker? *)
Definition has_guard (line : str) : bool := contains (lit "onlyOwner") line.

(** Does a line of the window [lines[i - 1:i + 3]] carry the guard marker? *)
Definition guard_in_window (lines : list str) (i : nat) : bool :=
  existsb has_guard (slice (i - 1) (i + 3) lines).

(** The entry recorded for a numbered line. *)
Definition located (il : nat * str) : str := finding (fst il) (snd il).

(** The character before the position that follows [pre], [prev] being the
    character before [pre]. *)
Definition last_char (prev : option char) (pre : str) : option char :=
  fold_left (fun _ c => Some c) pre prev.

(** The pattern that matches the word [w] letter by letter. *)
Definition literal (w : str) : Re.regex := map (fun c => Re.One (Re.Lit c)) w.

(** A call-shaped occurrence of [name]: the name at a word boundary,
    optional whitespace, an opening parenthesis. *)
Definition call_shaped (uni_alnum : char -> bool) (name line : str) : Prop :=
  exists pre ws post,
    line = pre ++ name ++ ws ++ 40 :: post /\
    forallb isspace ws = true /\
    Re.word_before uni_alnum (last_char None pre) = false.

(** A declaration of [initialize]: the word [function], whitespace, the
    word [initialize], both at word boundaries. *)
Definition declares_initialize (uni_alnum : char -> bool) (line : str) : Prop :=
  exists pre ws post,
    line = pre ++ lit "function" ++ ws ++ lit "initialize" ++ post /\
    ws <> [] /\ forallb isspace ws = true /\
    Re.word_before uni_alnum (last_char None pre) = false /\
    Re.word_after uni_alnum post = false.

(** The entries a numbered line contributes to [unprotected_role_setters]:
    one per setter name it calls, when its window has no guard. *)
Definition setter_entries (uni_alnum : char -> bool) (lines : list str)
           (il : nat * str) : list str :=
  flat_map (fun setter =>
              if is_setter_call uni_alnum setter (snd il) &&
                 negb (guard_in_window lines (fst il))
              then [located il] else [])
           ROLE_SETTERS.

End Spec.

(** ** A sample run *)

Module Sample.
Import Py Auditor.

Definition audited : str := lit "0x5aaeb6053f3e94c9b9a09f33669435e7ef1beaed".

Definition zero_word : bytes := repeat Byte.x00 32.

Definition args : Args :=
  {| arg_address := audited;
     arg_chain := lit "mainnet";
     arg_from_block := Some 0;
     arg_to_block := Some 0 |}.

Definition source : item :=
  {| SourceCode := Some (lit "contract C {}");
     ContractName := Some (lit "C") |}.

Definition transfer_log (n : Z) : RawLog :=
  {| blockNumber := n;
     transactionHash := [Byte.x01];
     topics := [Keccak.keccak_text (lit "Transfer(address,address,uint256)")] |}.

(** A node whose query for the window starting at block 50000 fails and
    which returns one transfer at the first block of every other window. *)
Definition flaky_get_logs (addr : str) (a b : Z) : outcome (list RawLog) :=
  if a =? 50000 then Raised ProviderError else Returned [transfer_log a].

End Sample.

(** * Further definitions *)

(** ** Vocabulary of the further properties *)

Module More.
Import Py Auditor.



(** *** [write_report] *)

(** The [meta] and [findings] dictionaries as [main] builds them. *)
Record ReportMeta := {
  meta_address : str;
  meta_chain : str;
  meta_implementation : option str
}.

Record ReportFindings := {
  report_grep : Findings;
  report_slither : option str;
  report_logs : Logs
}.

(** [f"{n}"] for an integer. *)
Definition format_int (z : Z) : str :=
  if z <? 0 then 45 :: format_nat (Z.to_nat (- z)) else format_nat (Z.to_nat z).

(** [findings["grep"].items()], in the order [grep_patterns] fills it. *)
Definition grep_items (f : Findings) : list (str * list str) :=
  [(lit "init_functions", init_functions f);
   (lit "unprotected_inits", unprotected_inits f);
   (lit "unprotected_role_setters", unprotected_role_setters f);
   (lit "internal_transfer_calls", internal_transfer_calls f)].

(** [findings["logs"].items()], in the order [scan_logs] builds it. *)
Definition logs_items (l : Logs) : list (str * list LogEvent) :=
  [(lit "transfer", transfer l);
   (lit "blacklisted", blacklisted l);
   (lit "upgraded", upgraded l)].

Definition grep_section (item : str * list str) : str :=
  lit "- " ++ fst item ++ lit ": " ++ format_nat (length (snd item)) ++ [10] ++
  flat_map (fun it => lit "  - " ++ it ++ [10]) (firstn 10 (snd item)).

Definition logs_section (item : str * list LogEvent) : str :=
  lit "- " ++ fst item ++ lit ": " ++ format_nat (length (snd item)) ++ [10] ++
  flat_map (fun it => lit "  - blk " ++ format_int (block it) ++
                      lit " tx " ++ tx it ++ [10])
           (firstn 10 (snd item)).

(** The text [write_report] writes to the report file.  The [logs]
    dictionary of [main] has three keys and so is never falsy. *)
Definition write_report (meta : ReportMeta) (findings : ReportFindings) : str :=
  lit "# Smart Contract Audit Snapshot" ++ [10; 10] ++
  lit "- Address: `" ++ meta_address meta ++ lit "`" ++ [10] ++
  lit "- Chain: `" ++ meta_chain meta ++ lit "`" ++ [10] ++
  match meta_implementation meta with
  | Some (c :: impl) => lit "- Implementation: `" ++ (c :: impl) ++ lit "`" ++ [10]
  | _ => []
  end ++
  [10] ++ lit "## Heuristic Source Findings" ++ [10; 10] ++
  flat_map grep_section (grep_items (report_grep findings)) ++
  match report_slither findings with
  | Some (c :: sl) =>
      [10] ++ lit "## Slither Summary (truncated)" ++ [10; 10] ++
      lit "```" ++ [10] ++ firstn 5000 (c :: sl) ++ [10] ++ lit "```" ++ [10]
  | _ => []
  end ++
  [10] ++ lit "## On-chain Events (batched scan)" ++ [10; 10] ++
  flat_map logs_section (logs_items (report_logs findings)) ++
  [10] ++ lit "## Notes" ++ [10] ++
  lit "- This is an automated snapshot to guide manual review per your methodology." ++
  [10].

(** What the report shows of a list: its length and its first ten entries. *)
Definition shown {A} (xs : list A) : nat * list A := (length xs, firstn 10 xs).

(** A report input: eleven initializer findings, the last one given, and
    one transfer event with the given topic. *)
Definition sample_meta : ReportMeta :=
  {| meta_address := lit "0x00"; meta_chain := lit "mainnet";
     meta_implementation := None |}.

Definition sample_findings (last topic : str) : ReportFindings :=
  {| report_grep :=
       {| init_functions := repeat (lit "L1: function initialize()") 10 ++ [last];
          unprotected_inits := [];
          unprotected_role_setters := [];
          internal_transfer_calls := [] |};
     report_slither := None;
     report_logs :=
       {| transfer := [{| block := 7; tx := lit "ab"; event_topics := [topic] |}];
          blacklisted := [];
          upgraded := [] |} |}.

End More.

(** * Properties *)

Import Py.

(** ** The models of the library routines agree with published values *)

Example keccak_of_empty_text :
  hex (Keccak.keccak_text [])
  = lit "c5d2460186f7233c927e7db2dcc703c0e500b653ca82273b7bfad8045d85a470".
Proof. vm_compute. reflexivity. Qed.

Example eip1967_slot_is_hash_minus_one :
  int16 (hex (Keccak.keccak_text (lit "eip1967.proxy.implementation")))
  = Returned (Auditor.implementation_slot_number + 1).
Proof. vm_compute. reflexivity. Qed.

Example eip55_address :
  Eth.to_checksum_address (lit "0x5aaeb6053f3e94c9b9a09f33669435e7ef1beaed")
  = Returned (lit "0x5aAeb6053F3E94C9b9A09f33669435E7Ef1BeAed") /\
  Eth.to_checksum_address (lit "FB6916095CA1DF60BB79CE92CE3EA74C37C5D359")
  = Returned (lit "0xfB6916095ca1df60bB79Ce92cE3Ea74c37c5d359") /\
  Eth.to_checksum_address (lit "0x5aaeb6053f3e94c9b9a09f33669435e7ef1beae")
  = Raised ValueError.
Proof. vm_compute. auto. Qed.

Example patterns_compile :
  Re.compile 40 (lit "\bfunction\s+initialize\b")
  = Some (Re.WordBoundary
            :: Spec.literal (lit "function")
            ++ Re.Plus Re.Space
            :: Spec.literal (lit "initialize") ++ [Re.WordBoundary]) /\
  Re.compile 40 (lit "\b_transfer\s*\(")
  = Some (Re.WordBoundary
            :: Spec.literal (lit "_transfer")
            ++ [Re.Star Re.Space; Re.One (Re.Lit 40)]).
Proof. vm_compute. auto. Qed.

Example splitlines_boundaries :
  splitlines (lit "a" ++ [13; 10] ++ lit "b" ++ [10; 10] ++ lit "c" ++ [13])
  = [lit "a"; lit "b"; []; lit "c"] /\
  splitlines [] = [] /\ splitlines [10] = [[]].
Proof. vm_compute. auto. Qed.

(** ** Strings *)

Lemma str_eqb_eq (a b : str) : str_eqb a b = true <-> a = b.
Proof.
  revert b; induction a as [|x a IH]; intros [|y b]; simpl;
    try (split; [discriminate | congruence]); try tauto.
  rewrite andb_true_iff, Z.eqb_eq, IH. split.
  - intros [-> ->]; reflexivity.
  - intros E; injection E; auto.
Qed.

Lemma str_eqb_refl (a : str) : str_eqb a a = true.
Proof. apply str_eqb_eq; reflexivity. Qed.

Lemma startswith_spec (p s : str) :
  startswith p s = true <-> exists rest, s = p ++ rest.
Proof.
  revert s; induction p as [|x p IH]; intros s; simpl.
  - split; [intros _; exists s; reflexivity | reflexivity].
  - destruct s as [|y s].
    + split; [discriminate | intros [r E]; discriminate].
    + rewrite andb_true_iff, Z.eqb_eq, IH. split.
      * intros [-> [r ->]]. exists r; reflexivity.
      * intros [r E]. injection E as -> ->. split; [reflexivity | eauto].
Qed.

Lemma startswith_app (p rest : str) : startswith p (p ++ rest) = true.
Proof. apply startswith_spec; eauto. Qed.

Lemma contains_spec (needle hay : str) :
  contains needle hay = true <-> exists pre post, hay = pre ++ needle ++ post.
Proof.
  induction hay as [|c hay IH].
  - simpl. rewrite orb_false_r, startswith_spec. split.
    + intros [r E]. exists [], r. exact E.
    + intros [pre [post E]]. destruct pre; [eauto | discriminate].
  - cbn [contains]. rewrite orb_true_iff, startswith_spec, IH. split.
    + intros [[r E] | [pre [post E]]].
      * exists [], r. exact E.
      * exists (c :: pre), post. rewrite E. reflexivity.
    + intros [[|x pre] [post E]].
      * left. exists post. exact E.
      * right. injection E as -> E. eauto.
Qed.

(** ** Hexadecimal text and checksummed addresses *)

Lemma hex_length (b : bytes) : length (hex b) = (2 * length b)%nat.
Proof. induction b; simpl; lia. Qed.

Lemma hex_byte_lower (x : Byte.byte) :
  is_lower_hex (hex_digit (byte_val x / 16)) = true /\
  is_lower_hex (hex_digit (byte_val x mod 16)) = true.
Proof. destruct x; split; reflexivity. Qed.

Lemma hex_lower (b : bytes) : forallb is_lower_hex (hex b) = true.
Proof.
  induction b as [|x b IH]; simpl; [reflexivity|].
  destruct (hex_byte_lower x) as [-> ->]. exact IH.
Qed.

Ltac split_cmp :=
  repeat match goal with
         | |- context [?a <=? ?b] => destruct (Z.leb_spec a b)
         | |- context [?a <? ?b] => destruct (Z.ltb_spec a b)
         | |- context [?a =? ?b] => destruct (Z.eqb_spec a b)
         | H : context [?a <=? ?b] |- _ => destruct (Z.leb_spec a b)
         | H : context [?a <? ?b] |- _ => destruct (Z.ltb_spec a b)
         | H : context [?a =? ?b] |- _ => destruct (Z.eqb_spec a b)
         end.

Lemma lower_hex_fixed (c : char) : is_lower_hex c = true -> ascii_lower c = c.
Proof.
  unfold is_lower_hex, ascii_lower. intros H.
  split_cmp; simpl in *; try reflexivity; try discriminate; lia.
Qed.

Lemma lower_hex_not_x (c : char) : is_lower_hex c = true -> c <> 120 /\ c <> 88.
Proof.
  unfold is_lower_hex. intros H.
  split_cmp; simpl in *; try discriminate; lia.
Qed.

Lemma map_lower_fixed (s : str) :
  forallb is_lower_hex s = true -> map ascii_lower s = s.
Proof.
  induction s as [|c s IH]; simpl; [reflexivity|].
  rewrite andb_true_iff. intros [Hc Hs].
  rewrite (lower_hex_fixed c Hc), (IH Hs). reflexivity.
Qed.

Lemma remove_0x_prefix_lower_hex (s : str) :
  forallb is_lower_hex s = true -> Eth.remove_0x_prefix s = s.
Proof.
  intros H. unfold Eth.remove_0x_prefix.
  change (lit "0x") with [48; 120]. change (lit "0X") with [48; 88].
  destruct s as [|a [|b s]]; cbn [startswith].
  - reflexivity.
  - rewrite !andb_false_r. reflexivity.
  - cbn [forallb] in H. rewrite !andb_true_iff in H. destruct H as [_ [Hb _]].
    apply lower_hex_not_x in Hb. destruct Hb as [Hx HX].
    destruct (Z.eqb_spec 120 b); [congruence|].
    destruct (Z.eqb_spec 88 b); [congruence|].
    rewrite !andb_false_r. reflexivity.
Qed.

(** A string of forty lower-case hex digits is an address, and its
    checksummed form is its EIP-55 casing. *)
Lemma to_checksum_address_lower_hex (body : str) :
  length body = 40%nat -> forallb is_lower_hex body = true ->
  Eth.to_checksum_address body = Returned (Eth.checksum_encode body).
Proof.
  intros Hlen Hhex. unfold Eth.to_checksum_address.
  rewrite (remove_0x_prefix_lower_hex body Hhex), (map_lower_fixed body Hhex).
  rewrite Hlen, Hhex. reflexivity.
Qed.

Lemma lower_checksum_case (c h : char) :
  is_lower_hex c = true -> ascii_lower (Eth.checksum_case c h) = c.
Proof.
  unfold Eth.checksum_case, is_lower_hex, ascii_lower, ascii_upper. intros H.
  destruct (7 <? hex_value h); split_cmp; simpl in *;
    try reflexivity; try discriminate; lia.
Qed.

Lemma lower_checksum_pairs (body h : str) :
  forallb is_lower_hex body = true -> (length body <= length h)%nat ->
  map ascii_lower (map (fun '(c, d) => Eth.checksum_case c d) (combine body h))
  = body.
Proof.
  revert h; induction body as [|c body IH]; intros [|d h] Hhex Hlen; simpl in *;
    try reflexivity; try lia.
  rewrite andb_true_iff in Hhex. destruct Hhex as [Hc Hb].
  rewrite (lower_checksum_case c d Hc), (IH h Hb); [reflexivity | lia].
Qed.

Lemma keccak_text_length (s : str) : length (Keccak.keccak_text s) = 32%nat.
Proof.
  unfold Keccak.keccak_text, Keccak.keccak256. rewrite length_map.
  set (st := Keccak.absorb _ _ _).
  assert (H : forall l, length (flat_map (Keccak.bytes_of_lane 8) l) = (8 * length l)%nat).
  { induction l as [|x l IH]; [reflexivity|].
    cbn [flat_map]. rewrite length_app, IH. simpl. lia. }
  rewrite H, length_firstn.
  assert (Hst : length st = 25%nat).
  { subst st. generalize (Keccak.pad (flat_map Keccak.utf8_encode_char s)).
    intros p. generalize (length p / Keccak.rate)%nat. intros n.
    assert (G : forall n st b, length st = 25%nat ->
                 length (Keccak.absorb n st b) = 25%nat).
    { clear. induction n as [|n IH]; intros st b Hst; simpl; [exact Hst|].
      apply IH.
      assert (R : forall st rc, length (Keccak.round st rc) = 25%nat).
      { intros st0 rc. unfold Keccak.round, Keccak.iota, Keccak.chi.
        simpl. reflexivity. }
      unfold Keccak.keccak_f.
      generalize (Keccak.xor_lanes st (Keccak.lanes_of_bytes 17 (firstn Keccak.rate b))).
      intros st0. unfold Keccak.round_constants.
      cbn [fold_left]. apply R. }
    apply G. reflexivity. }
  rewrite Hst. reflexivity.
Qed.

(** Lower-casing a checksummed address gives back the hex digits. *)
Lemma lower_checksum_encode (body : str) :
  length body = 40%nat -> forallb is_lower_hex body = true ->
  map ascii_lower (Eth.checksum_encode body) = lit "0x" ++ body.
Proof.
  intros Hlen Hhex. unfold Eth.checksum_encode.
  rewrite map_app. f_equal.
  apply lower_checksum_pairs; [exact Hhex|].
  rewrite hex_length, keccak_text_length, Hlen. lia.
Qed.

(** ** The storage-slot resolver *)

Import Auditor.

Lemma implementation_slot_value :
  int16 EIP1967_IMPLEMENTATION_SLOT = Returned implementation_slot_number.
Proof. vm_compute. reflexivity. Qed.

Lemma last_n_split {A} (n : nat) (xs : list A) :
  (n <= length xs)%nat ->
  length (last_n n xs) = n /\ xs = firstn (length xs - n) xs ++ last_n n xs.
Proof.
  intros H. unfold last_n. split.
  - rewrite length_skipn. lia.
  - symmetry. apply firstn_skipn.
Qed.

Lemma to_checksum_address_hex (b : bytes) :
  length b = 20%nat ->
  Eth.to_checksum_address (hex b) = Returned (Eth.checksum_encode (hex b)).
Proof.
  intros H. apply to_checksum_address_lower_hex.
  - rewrite hex_length, H. reflexivity.
  - apply hex_lower.
Qed.

Lemma checksum_encode_nonempty (body : str) : Eth.checksum_encode body <> [].
Proof. unfold Eth.checksum_encode. discriminate. Qed.

Section Resolver.

Variable get_storage_at : str -> Z -> outcome bytes.

Lemma detect_word (proxy_addr a : str) (raw : bytes) :
  Eth.to_checksum_address proxy_addr = Returned a ->
  get_storage_at a implementation_slot_number = Returned raw ->
  length raw = 32%nat ->
  detect_proxy_and_impl get_storage_at proxy_addr
  = Some (Eth.checksum_encode (hex (last_n 20 raw))).
Proof.
  intros Ha Hread Hlen.
  unfold detect_proxy_and_impl, read_implementation.
  rewrite Ha, implementation_slot_value. cbn [bind]. rewrite Hread. cbn [bind].
  destruct raw as [|b raw]; [discriminate|].
  rewrite Hlen. cbn [Nat.eqb].
  rewrite to_checksum_address_hex; [reflexivity|].
  apply last_n_split. rewrite Hlen. lia.
Qed.

Lemma detect_wrong_length (proxy_addr a : str) (raw : bytes) :
  Eth.to_checksum_address proxy_addr = Returned a ->
  get_storage_at a implementation_slot_number = Returned raw ->
  length raw <> 32%nat ->
  detect_proxy_and_impl get_storage_at proxy_addr = None.
Proof.
  intros Ha Hread Hlen.
  unfold detect_proxy_and_impl, read_implementation.
  rewrite Ha, implementation_slot_value. cbn [bind]. rewrite Hread. cbn [bind].
  destruct raw as [|b raw]; [reflexivity|].
  destruct (Nat.eqb_spec (length (b :: raw)) 32); [contradiction | reflexivity].
Qed.

Lemma detect_read_fails (proxy_addr a : str) (e : exn) :
  Eth.to_checksum_address proxy_addr = Returned a ->
  get_storage_at a implementation_slot_number = Raised e ->
  detect_proxy_and_impl get_storage_at proxy_addr = None.
Proof.
  intros Ha Hread.
  unfold detect_proxy_and_impl, read_implementation.
  rewrite Ha, implementation_slot_value. cbn [bind]. rewrite Hread. reflexivity.
Qed.

Lemma detect_zero_word (proxy_addr a : str) :
  Eth.to_checksum_address proxy_addr = Returned a ->
  get_storage_at a implementation_slot_number = Returned (repeat Byte.x00 32) ->
  detect_proxy_and_impl get_storage_at proxy_addr
  = Some (lit "0x0000000000000000000000000000000000000000").
Proof.
  intros Ha Hread. rewrite (detect_word proxy_addr a _ Ha Hread eq_refl).
  vm_compute. reflexivity.
Qed.

(** A present result is never the empty string. *)
Lemma detect_nonempty (proxy_addr impl : str) :
  detect_proxy_and_impl get_storage_at proxy_addr = Some impl -> impl <> [].
Proof.
  unfold detect_proxy_and_impl, read_implementation.
  destruct (Eth.to_checksum_address proxy_addr) as [a|]; cbn [bind]; [|discriminate].
  destruct (int16 EIP1967_IMPLEMENTATION_SLOT) as [slot|]; cbn [bind]; [|discriminate].
  destruct (get_storage_at a slot) as [raw|]; cbn [bind]; [|discriminate].
  destruct raw as [|b raw]; [discriminate|].
  destruct (length (b :: raw) =? 32)%nat; [|discriminate].
  unfold Eth.to_checksum_address.
  destruct (_ && _); cbn [bind]; [|discriminate].
  intros E. injection E as <-. apply checksum_encode_nonempty.
Qed.

(** C1: when the read of the EIP-1967 slot returns a 32-byte word, the
    resolver returns the EIP-55 form of the hex digits of the word's last
    twenty bytes (lower-casing the result gives back [0x] and those digits);
    for the all-zero word the result is the zero address, present; a word of
    any other length, and a failed read, give an absent result. *)
Theorem detect_proxy_and_impl_spec (proxy_addr a : str) :
  Eth.to_checksum_address proxy_addr = Returned a ->
  (forall raw,
      get_storage_at a implementation_slot_number = Returned raw ->
      length raw = 32%nat ->
      exists high low impl,
        raw = high ++ low /\ length low = 20%nat /\
        detect_proxy_and_impl get_storage_at proxy_addr = Some impl /\
        Eth.to_checksum_address (hex low) = Returned impl /\
        map ascii_lower impl = lit "0x" ++ hex low) /\
  (get_storage_at a implementation_slot_number = Returned (repeat Byte.x00 32) ->
   detect_proxy_and_impl get_storage_at proxy_addr
   = Some (lit "0x0000000000000000000000000000000000000000")) /\
  (forall raw,
      get_storage_at a implementation_slot_number = Returned raw ->
      length raw <> 32%nat ->
      detect_proxy_and_impl get_storage_at proxy_addr = None) /\
  (forall e,
      get_storage_at a implementation_slot_number = Raised e ->
      detect_proxy_and_impl get_storage_at proxy_addr = None).
Proof.
  intros Ha. repeat split.
  - intros raw Hread Hlen.
    destruct (last_n_split 20 raw) as [Hlow Hsplit]; [rewrite Hlen; lia|].
    exists (firstn (length raw - 20) raw), (last_n 20 raw),
           (Eth.checksum_encode (hex (last_n 20 raw))).
    repeat split; auto.
    + apply (detect_word proxy_addr a raw Ha Hread Hlen).
    + apply to_checksum_address_hex. exact Hlow.
    + apply lower_checksum_encode; [|apply hex_lower].
      rewrite hex_length, Hlow. reflexivity.
  - intros Hread. exact (detect_zero_word proxy_addr a Ha Hread).
  - intros raw Hread Hlen. exact (detect_wrong_length proxy_addr a raw Ha Hread Hlen).
  - intros e Hread. exact (detect_read_fails proxy_addr a e Ha Hread).
Qed.

End Resolver.

(** For a node whose every slot reads as the zero word, the resolver
    reports the zero address as the implementation. *)
Lemma detect_proxy_and_impl_spec_witness :
  Eth.to_checksum_address (lit "0x5aaeb6053f3e94c9b9a09f33669435e7ef1beaed")
  = Returned (lit "0x5aAeb6053F3E94C9b9A09f33669435E7Ef1BeAed") /\
  detect_proxy_and_impl (fun _ _ => Returned (repeat Byte.x00 32))
                        (lit "0x5aaeb6053f3e94c9b9a09f33669435e7ef1beaed")
  = Some (lit "0x0000000000000000000000000000000000000000").
Proof.
  assert (H : Eth.to_checksum_address (lit "0x5aaeb6053f3e94c9b9a09f33669435e7ef1beaed")
              = Returned (lit "0x5aAeb6053F3E94C9b9A09f33669435E7Ef1BeAed")).
  { vm_compute. reflexivity. }
  split; [exact H|].
  apply (detect_proxy_and_impl_spec (fun _ _ => Returned (repeat Byte.x00 32)) _ _ H).
  reflexivity.
Defined.

Lemma to_checksum_address_inv (value a : str) :
  Eth.to_checksum_address value = Returned a ->
  exists body, length body = 40%nat /\ forallb is_lower_hex body = true /\
               a = Eth.checksum_encode body.
Proof.
  unfold Eth.to_checksum_address.
  set (body := map ascii_lower (Eth.remove_0x_prefix value)).
  destruct (Nat.eqb_spec (length body) 40) as [Hlen|]; [|discriminate].
  destruct (forallb is_lower_hex body) eqn:Hhex; [|discriminate].
  cbn [andb]. intros E. injection E as <-. exists body. auto.
Qed.

(** Normalising a checksummed address changes nothing. *)
Lemma to_checksum_address_idem (value a : str) :
  Eth.to_checksum_address value = Returned a ->
  Eth.to_checksum_address a = Returned a.
Proof.
  intros H. destruct (to_checksum_address_inv value a H) as [body [Hlen [Hhex ->]]].
  unfold Eth.to_checksum_address at 1.
  assert (Hbody : map ascii_lower (Eth.remove_0x_prefix (Eth.checksum_encode body)) = body).
  { unfold Eth.remove_0x_prefix, Eth.checksum_encode.
    rewrite startswith_app. cbn [orb].
    change (lit "0x") with [48; 120]. cbn [app skipn].
    apply lower_checksum_pairs; [exact Hhex|].
    rewrite hex_length, keccak_text_length, Hlen. lia. }
  rewrite Hbody, Hlen, Hhex. reflexivity.
Qed.

(** ** The block range and the fetch target chosen by [main] *)

Lemma range_head (start stop step x : Z) (rest : list Z) :
  range start stop step = Returned (x :: rest) -> x = start.
Proof.
  unfold range. destruct (step =? 0); [discriminate|].
  destruct (0 <? step); cbv zeta iota beta.
  - destruct (Z.to_nat _); simpl; [discriminate|].
    intros E. injection E as <- _. lia.
  - destruct (Z.to_nat _); simpl; [discriminate|].
    intros E. injection E as <- _. lia.
Qed.

(** A bound of 0 is falsy: [or] replaces it as it replaces a missing one. *)
Lemma or_int_zero (default : Z) :
  or_int (Some 0) default = default /\ or_int None default = default.
Proof. split; reflexivity. Qed.

Lemma or_int_nonzero (bound : option Z) (default : Z) :
  default <> 0 -> or_int bound default <> 0.
Proof.
  intros Hd. unfold or_int. destruct bound as [n|]; [|exact Hd].
  destruct (Z.eqb_spec n 0); assumption.
Qed.

Section Orchestrator.

Variable get_storage_at : str -> Z -> outcome bytes.
Variable get_logs : str -> Z -> Z -> outcome (list RawLog).
Variable block_number : outcome Z.
Variable uni_alnum : char -> bool.
Variable fetch_source_from_etherscan : str -> str -> outcome item.

Local Abbreviation run := (main get_storage_at get_logs block_number uni_alnum
                      fetch_source_from_etherscan).

Lemma scan_windows_head (addr : str) (to_block step : Z) (starts : list Z)
      (acc : Logs) (q : Z * Z) (qs : list (Z * Z)) (res : outcome Logs) :
  scan_windows get_logs addr to_block step starts acc = (q :: qs, res) ->
  exists rest, starts = fst q :: rest.
Proof.
  destruct starts as [|start rest]; simpl; [discriminate|].
  destruct (get_logs addr start _) as [logs|e].
  - destruct (classify_all logs acc) as [acc'|e].
    + destruct (scan_windows get_logs addr to_block step rest acc') as [qs' res'].
      intros E. injection E as <- _ _. exists rest. reflexivity.
    + intros E. injection E as <- _ _. exists rest. reflexivity.
  - destruct (scan_windows get_logs addr to_block step rest acc) as [qs' res'].
    intros E. injection E as <- _ _. exists rest. reflexivity.
Qed.

Lemma scan_logs_first_query (address : str) (from_block to_block step : Z)
      (q : Z * Z) (qs : list (Z * Z)) (res : outcome Logs) :
  scan_logs get_logs address from_block to_block step = (q :: qs, res) ->
  fst q = from_block.
Proof.
  unfold scan_logs.
  destruct (Eth.to_checksum_address address) as [addr|]; [|discriminate].
  destruct (range from_block (to_block + 1) step) as [starts|] eqn:Hr; [|discriminate].
  intros H. apply scan_windows_head in H. destruct H as [rest ->].
  apply range_head in Hr. exact Hr.
Qed.

(** What a completed run fixes: how its fields were computed. *)
Lemma main_returned (args : Args) (audit : Audit) :
  run args = Returned audit ->
  exists latest it,
    Eth.to_checksum_address (arg_address args) = Returned (audit_address audit) /\
    block_number = Returned latest /\
    audit_from_block audit
    = or_int (arg_from_block args) (Z.max 0 (latest - 200000)) /\
    audit_to_block audit = or_int (arg_to_block args) latest /\
    audit_implementation audit
    = detect_proxy_and_impl get_storage_at (audit_address audit) /\
    audit_target audit
    = or_str (audit_implementation audit) (audit_address audit) /\
    fetch_source_from_etherscan (audit_target audit) (arg_chain args)
    = Returned it /\
    expand_sources it = Returned (audit_sources audit) /\
    scan_logs get_logs (audit_address audit) (audit_from_block audit)
              (audit_to_block audit) 50000
    = (audit_queries audit, Returned (audit_logs audit)).
Proof.
  unfold main.
  destruct (Eth.to_checksum_address (arg_address args)) as [address|];
    cbn [bind]; [|discriminate].
  destruct block_number as [latest|]; cbn [bind]; [|discriminate].
  destruct (fetch_source_from_etherscan _ (arg_chain args)) as [it|] eqn:Hfetch;
    cbn [bind]; [|discriminate].
  destruct (expand_sources it) as [sources|] eqn:Hexp; cbn [bind]; [|discriminate].
  destruct (scan_logs get_logs address _ _ 50000) as [queries [logs|]] eqn:Hscan;
    cbn [bind]; [|discriminate].
  intros E. injection E as <-. cbn.
  exists latest, it. repeat split; auto.
Qed.

(** C10: a run given the explicit bound 0 uses the default instead: the
    scan starts at [max(0, latest - 200000)] for from-block 0 and ends at
    [latest] for to-block 0, exactly as when the bound is not given; and
    when [latest] exceeds 200000, no argument makes the run's first block 0:
    every run's from-block is non-zero and its first query starts there. *)
Theorem main_zero_bound_is_default (args : Args) (audit : Audit) (latest : Z) :
  block_number = Returned latest ->
  run args = Returned audit ->
  (arg_from_block args = Some 0 \/ arg_from_block args = None ->
   audit_from_block audit = Z.max 0 (latest - 200000)) /\
  (arg_to_block args = Some 0 \/ arg_to_block args = None ->
   audit_to_block audit = latest) /\
  (200000 < latest ->
   audit_from_block audit <> 0 /\
   forall q qs, audit_queries audit = q :: qs ->
                fst q = audit_from_block audit /\ fst q <> 0).
Proof.
  intros Hlatest Hrun.
  destruct (main_returned args audit Hrun)
    as [latest' [it [_ [Hl [Hfrom [Hto [_ [_ [_ [_ Hscan]]]]]]]]]].
  rewrite Hlatest in Hl. injection Hl as <-.
  assert (Hnz : 200000 < latest -> audit_from_block audit <> 0).
  { intros Hbig. rewrite Hfrom. apply or_int_nonzero. lia. }
  split; [|split].
  - intros [E | E]; rewrite Hfrom, E; apply or_int_zero.
  - intros [E | E]; rewrite Hto, E; apply or_int_zero.
  - intros Hbig. split; [auto|].
    intros q qs Hq. rewrite Hq in Hscan.
    apply scan_logs_first_query in Hscan. rewrite Hscan. auto.
Qed.

(** C9: the address whose verified source a run fetches and expands is the
    resolver's result when there is one and the audited address otherwise;
    a proxy slot holding the all-zero word is a present result, so the run
    fetches the source of the zero address. *)
Theorem main_fetch_target (args : Args) (audit : Audit) :
  run args = Returned audit ->
  audit_implementation audit
  = detect_proxy_and_impl get_storage_at (audit_address audit) /\
  (forall impl, audit_implementation audit = Some impl ->
                audit_target audit = impl) /\
  (audit_implementation audit = None ->
   audit_target audit = audit_address audit) /\
  (exists it,
      fetch_source_from_etherscan (audit_target audit) (arg_chain args)
      = Returned it /\
      expand_sources it = Returned (audit_sources audit)) /\
  (get_storage_at (audit_address audit) implementation_slot_number
   = Returned (repeat Byte.x00 32) ->
   audit_implementation audit
   = Some (lit "0x0000000000000000000000000000000000000000") /\
   audit_target audit = lit "0x0000000000000000000000000000000000000000").
Proof.
  intros Hrun.
  destruct (main_returned args audit Hrun)
    as [latest [it [Haddr [_ [_ [_ [Himpl [Htarget [Hfetch [Hexp _]]]]]]]]]].
  split; [exact Himpl|]. split; [|split; [|split]].
  - intros impl E. rewrite Htarget, E.
    rewrite Himpl in E. apply detect_nonempty in E.
    destruct impl; [contradiction | reflexivity].
  - intros E. rewrite Htarget, E. reflexivity.
  - exists it. auto.
  - intros Hread.
    apply to_checksum_address_idem in Haddr.
    pose proof (detect_zero_word get_storage_at _ _ Haddr Hread) as Hzero.
    rewrite Htarget, Himpl, Hzero. split; reflexivity.
Qed.

End Orchestrator.

(** A run against a node at height 300000 whose proxy slot reads zero. *)
Lemma main_zero_bound_is_default_witness :
  exists audit,
    main (fun _ _ => Returned Sample.zero_word) (fun _ _ _ => Returned [])
         (Returned 300000) (fun _ => false) (fun _ _ => Returned Sample.source)
         Sample.args = Returned audit /\
    audit_from_block audit = 100000 /\ audit_to_block audit = 300000.
Proof.
  assert (H : { audit | main (fun _ _ => Returned Sample.zero_word)
                             (fun _ _ _ => Returned [])
                             (Returned 300000) (fun _ => false)
                             (fun _ _ => Returned Sample.source)
                             Sample.args = Returned audit }).
  { eexists. vm_compute. reflexivity. }
  destruct H as [audit Haudit]. exists audit. split; [exact Haudit|].
  destruct (main_zero_bound_is_default _ _ _ _ _ Sample.args audit 300000
              eq_refl Haudit) as [Hfrom [Hto _]].
  split; [apply Hfrom | apply Hto]; left; reflexivity.
Defined.

Lemma main_fetch_target_witness :
  exists audit,
    main (fun _ _ => Returned Sample.zero_word) (fun _ _ _ => Returned [])
         (Returned 300000) (fun _ => false) (fun _ _ => Returned Sample.source)
         Sample.args = Returned audit /\
    audit_target audit = lit "0x0000000000000000000000000000000000000000".
Proof.
  assert (H : { audit | main (fun _ _ => Returned Sample.zero_word)
                             (fun _ _ _ => Returned [])
                             (Returned 300000) (fun _ => false)
                             (fun _ _ => Returned Sample.source)
                             Sample.args = Returned audit }).
  { eexists. vm_compute. reflexivity. }
  destruct H as [audit Haudit]. exists audit. split; [exact Haudit|].
  destruct (main_fetch_target _ _ _ _ _ Sample.args audit Haudit)
    as [_ [_ [_ [_ Hzero]]]].
  apply Hzero. reflexivity.
Defined.

(** ** The log retriever *)

Import Spec.

Lemma topics_distinct :
  TRANSFER_TOPIC <> BLACKLISTED_TOPIC /\ TRANSFER_TOPIC <> UPGR_TOPIC /\
  BLACKLISTED_TOPIC <> UPGR_TOPIC.
Proof.
  assert (H : str_eqb TRANSFER_TOPIC BLACKLISTED_TOPIC = false /\
              str_eqb TRANSFER_TOPIC UPGR_TOPIC = false /\
              str_eqb BLACKLISTED_TOPIC UPGR_TOPIC = false).
  { vm_compute. auto. }
  destruct H as [H1 [H2 H3]].
  repeat split; intros E; apply str_eqb_eq in E; congruence.
Qed.

Lemma topic_values :
  TRANSFER_TOPIC
  = lit "ddf252ad1be2c89b69c2b068fc378daa952ba7f163c4a11628f55a4df523b3ef" /\
  BLACKLISTED_TOPIC
  = lit "ffa4e6181777692565cf28528fc88fd1516ea86b56da075235fa575af6a4b855" /\
  UPGR_TOPIC
  = lit "bc7cd75a20ee27fd9adebab32041f755214dbc6bffa90cc0225b39da2e5c2d3b".
Proof. vm_compute. auto. Qed.

Lemma str_eqb_neq (a b : str) : a <> b -> str_eqb a b = false.
Proof.
  intros H. destruct (str_eqb a b) eqn:E; [|reflexivity].
  apply str_eqb_eq in E. contradiction.
Qed.

Lemma extend_nil (acc : Logs) : extend acc [] = acc.
Proof. destruct acc. unfold extend. cbn. rewrite !app_nil_r. reflexivity. Qed.

Lemma extend_app (acc : Logs) (l1 l2 : list RawLog) :
  extend (extend acc l1) l2 = extend acc (l1 ++ l2).
Proof.
  unfold extend. cbn [transfer blacklisted upgraded].
  rewrite !map_app, !filter_app, !app_assoc. reflexivity.
Qed.

(** One step of the chain, when the log has a first topic. *)
Lemma classify_extend (acc : Logs) (l : RawLog) :
  topics l <> [] -> classify acc l = Returned (extend acc [l]).
Proof.
  intros Ht. unfold classify, extend.
  cbn [map filter]. unfold event_is at 1 2 3. cbn [log_event event_topics].
  destruct (topics l) as [|first rest]; [contradiction|]. cbn [map].
  destruct topics_distinct as [D1 [D2 D3]].
  destruct (str_eqb (hex first) TRANSFER_TOPIC) eqn:E1.
  { apply str_eqb_eq in E1. rewrite E1.
    rewrite (str_eqb_neq _ _ D1), (str_eqb_neq _ _ D2), !app_nil_r.
    reflexivity. }
  destruct (str_eqb (hex first) BLACKLISTED_TOPIC) eqn:E2.
  { apply str_eqb_eq in E2. rewrite E2.
    rewrite (str_eqb_neq _ _ D3), !app_nil_r. reflexivity. }
  destruct (str_eqb (hex first) UPGR_TOPIC) eqn:E3.
  { rewrite !app_nil_r. reflexivity. }
  rewrite !app_nil_r. destruct acc; reflexivity.
Qed.

Lemma classify_all_returned (logs : list RawLog) (acc acc' : Logs) :
  classify_all logs acc = Returned acc' ->
  Forall (fun l => topics l <> []) logs /\ acc' = extend acc logs.
Proof.
  revert acc; induction logs as [|l logs IH]; intros acc; cbn [classify_all].
  - intros E. injection E as <-. split; [constructor | symmetry; apply extend_nil].
  - destruct (topics l) as [|first rest] eqn:Ht.
    + unfold classify. rewrite Ht. discriminate.
    + assert (Hne : topics l <> []) by (rewrite Ht; discriminate).
      rewrite (classify_extend acc l Hne). cbn [bind]. intros E.
      apply IH in E. destruct E as [Hall ->]. split.
      * constructor; assumption.
      * apply (extend_app acc [l] logs).
Qed.

Lemma classify_all_total (logs : list RawLog) (acc : Logs) :
  Forall (fun l => topics l <> []) logs ->
  classify_all logs acc = Returned (extend acc logs).
Proof.
  intros H. revert acc. induction H as [|l logs Hl _ IH]; intros acc;
    cbn [classify_all].
  - rewrite extend_nil. reflexivity.
  - rewrite (classify_extend acc l Hl). cbn [bind]. rewrite IH.
    f_equal. apply (extend_app acc [l] logs).
Qed.

Section Retriever.

Variable get_logs : str -> Z -> Z -> outcome (list RawLog).

Lemma retrieved_cons (addr : str) (w : Z * Z) (ws : list (Z * Z)) :
  retrieved get_logs addr (w :: ws)
  = match get_logs addr (fst w) (snd w) with
    | Returned logs => logs
    | Raised _ => []
    end ++ retrieved get_logs addr ws.
Proof. reflexivity. Qed.

(** A completed loop sent one query per start, in order, and kept what the
    successful ones returned. *)
Lemma scan_windows_returned (addr : str) (to_block step : Z) (starts : list Z)
      (acc out : Logs) (ws : list (Z * Z)) :
  scan_windows get_logs addr to_block step starts acc = (ws, Returned out) ->
  ws = map (window to_block step) starts /\
  out = extend acc (retrieved get_logs addr ws).
Proof.
  revert acc ws; induction starts as [|start rest IH]; intros acc ws;
    cbn [scan_windows map].
  - intros E. injection E as <- <-. split; [reflexivity|].
    symmetry. apply extend_nil.
  - fold (window to_block step start).
    destruct (get_logs addr start _) as [logs|e] eqn:Hq.
    + destruct (classify_all logs acc) as [acc'|e] eqn:Hc; [|discriminate].
      destruct (scan_windows get_logs addr to_block step rest acc')
        as [qs res] eqn:Hrest.
      intros E. injection E as <- ->.
      apply IH in Hrest. destruct Hrest as [-> ->].
      apply classify_all_returned in Hc. destruct Hc as [_ ->].
      split; [reflexivity|].
      rewrite retrieved_cons. cbn [window fst snd]. rewrite Hq.
      apply extend_app.
    + destruct (scan_windows get_logs addr to_block step rest acc)
        as [qs res] eqn:Hrest.
      intros E. injection E as <- ->.
      apply IH in Hrest. destruct Hrest as [-> ->].
      split; [reflexivity|].
      rewrite retrieved_cons. cbn [window fst snd]. rewrite Hq. reflexivity.
Qed.


End Retriever.

(** The starts produced by [range] for a positive step. *)
Lemma range_positive (start stop step : Z) :
  0 < step ->
  range start stop step
  = Returned (map (fun k => start + Z.of_nat k * step)
                  (seq 0 (Z.to_nat (if stop <=? start then 0
                                    else (stop - start - 1) / step + 1)))).
Proof.
  intros Hstep. unfold range.
  destruct (Z.eqb_spec step 0); [lia|].
  destruct (Z.ltb_spec 0 step); [|lia]. reflexivity.
Qed.



Lemma event_is_log_event (sig : str) (l : RawLog) :
  event_is sig (log_event l)
  = match topics l with
    | first :: _ => str_eqb (hex first) sig
    | [] => false
    end.
Proof. unfold event_is, log_event. cbn. destruct (topics l); reflexivity. Qed.

Lemma event_is_exclusive (s1 s2 : str) (ev : LogEvent) :
  s1 <> s2 -> event_is s1 ev = true -> event_is s2 ev = false.
Proof.
  unfold event_is. intros Hne. destruct (event_topics ev) as [|first rest];
    [discriminate|].
  intros E. apply str_eqb_eq in E. subst first. apply str_eqb_neq. exact Hne.
Qed.

Section RetrieverClaims.

Variable get_logs : str -> Z -> Z -> outcome (list RawLog).

Lemma scan_logs_returned (address : str) (from_block to_block step : Z)
      (ws : list (Z * Z)) (out : Logs) :
  scan_logs get_logs address from_block to_block step = (ws, Returned out) ->
  exists addr starts,
    Eth.to_checksum_address address = Returned addr /\
    range from_block (to_block + 1) step = Returned starts /\
    ws = map (window to_block step) starts /\
    out = extend no_logs (retrieved get_logs addr ws).
Proof.
  unfold scan_logs.
  destruct (Eth.to_checksum_address address) as [addr|]; [|discriminate].
  destruct (range from_block (to_block + 1) step) as [starts|]; [|discriminate].
  intros H. apply scan_windows_returned in H. destruct H as [-> ->].
  exists addr, starts. auto.
Qed.


(** C5: in a completed retrieval each of the three lists is, in order, the
    events of the returned logs whose first topic equals that kind's
    signature hash; the three hashes differ, so no event is under two kinds,
    and an event whose first topic is none of them is under no kind. *)
Theorem scan_logs_classification (address : str) (from_block to_block step : Z)
        (ws : list (Z * Z)) (out : Logs) :
  scan_logs get_logs address from_block to_block step = (ws, Returned out) ->
  exists addr,
    Eth.to_checksum_address address = Returned addr /\
    let events := map log_event (retrieved get_logs addr ws) in
    transfer out = filter (event_is TRANSFER_TOPIC) events /\
    blacklisted out = filter (event_is BLACKLISTED_TOPIC) events /\
    upgraded out = filter (event_is UPGR_TOPIC) events /\
    (forall ev, In ev (transfer out) ->
                ~ In ev (blacklisted out) /\ ~ In ev (upgraded out)) /\
    (forall ev, In ev (blacklisted out) ->
                ~ In ev (transfer out) /\ ~ In ev (upgraded out)) /\
    (forall ev, In ev (upgraded out) ->
                ~ In ev (transfer out) /\ ~ In ev (blacklisted out)) /\
    (forall ev, event_is TRANSFER_TOPIC ev = false ->
                event_is BLACKLISTED_TOPIC ev = false ->
                event_is UPGR_TOPIC ev = false ->
                ~ In ev (transfer out ++ blacklisted out ++ upgraded out)).
Proof.
  intros H. apply scan_logs_returned in H.
  destruct H as [addr [starts [Haddr [_ [_ Hout]]]]].
  exists addr. split; [exact Haddr|]. cbv zeta.
  set (events := map log_event (retrieved get_logs addr ws)) in *.
  assert (Ht : transfer out = filter (event_is TRANSFER_TOPIC) events)
    by (rewrite Hout; reflexivity).
  assert (Hb : blacklisted out = filter (event_is BLACKLISTED_TOPIC) events)
    by (rewrite Hout; reflexivity).
  assert (Hu : upgraded out = filter (event_is UPGR_TOPIC) events)
    by (rewrite Hout; reflexivity).
  destruct topics_distinct as [D1 [D2 D3]].
  assert (X : forall s1 s2 ev, s1 <> s2 -> In ev (filter (event_is s1) events) ->
                               ~ In ev (filter (event_is s2) events)).
  { intros s1 s2 ev Hne H1 H2. apply filter_In in H1, H2.
    destruct H1 as [_ H1], H2 as [_ H2].
    rewrite (event_is_exclusive s1 s2 ev Hne H1) in H2. discriminate. }
  rewrite Ht, Hb, Hu.
  split; [reflexivity|]. split; [reflexivity|]. split; [reflexivity|].
  split; [|split; [|split]].
  - intros ev Hin. split; revert Hin; apply X; assumption.
  - intros ev Hin. split; revert Hin; apply X; auto.
  - intros ev Hin. split; revert Hin; apply X; auto.
  - intros ev Nt Nb Nu Hin. rewrite !in_app_iff, !filter_In in Hin.
    destruct Hin as [[_ E] | [[_ E] | [_ E]]]; congruence.
Qed.

End RetrieverClaims.

(** The middle window of three fails: the result holds the events of the
    first and the third. *)
Example scan_logs_middle_window_fails :
  scan_logs Sample.flaky_get_logs Sample.audited 0 149999 50000
  = ([(0, 49999); (50000, 99999); (100000, 149999)],
     Returned {| transfer := [log_event (Sample.transfer_log 0);
                              log_event (Sample.transfer_log 100000)];
                 blacklisted := [];
                 upgraded := [] |}).
Proof. vm_compute. reflexivity. Qed.

(** A log without topics stops the retrieval with an [IndexError]. *)
Example scan_logs_log_without_topics :
  scan_logs (fun _ _ _ => Returned [{| blockNumber := 1;
                                       transactionHash := [];
                                       topics := [] |}])
            Sample.audited 0 149999 50000
  = ([(0, 49999)], Raised IndexError).
Proof. vm_compute. reflexivity. Qed.

Lemma flaky_logs_have_topics (addr : str) (a b : Z) (logs : list RawLog) :
  Sample.flaky_get_logs addr a b = Returned logs ->
  Forall (fun l => topics l <> []) logs.
Proof.
  unfold Sample.flaky_get_logs. destruct (a =? 50000); [discriminate|].
  intros E. injection E as <-. constructor; [discriminate | constructor].
Qed.


Lemma scan_logs_classification_witness :
  exists ws out,
    scan_logs Sample.flaky_get_logs Sample.audited 0 149999 50000
    = (ws, Returned out) /\
    forall ev, In ev (transfer out) ->
               ~ In ev (blacklisted out) /\ ~ In ev (upgraded out).
Proof.
  assert (H : { r | scan_logs Sample.flaky_get_logs Sample.audited 0 149999 50000
                    = (fst r, Returned (snd r)) }).
  { eexists (_, _). vm_compute. reflexivity. }
  destruct H as [[ws out] H]. cbn [fst snd] in H.
  exists ws, out. split; [exact H|].
  destruct (scan_logs_classification Sample.flaky_get_logs _ _ _ _ _ _ H)
    as [addr [_ [_ [_ [_ [Hexcl _]]]]]].
  exact Hexcl.
Defined.

(** ** The heuristic scanner *)

Lemma startswith_sep (needle x rest : str) (sep : char) :
  existsb (Z.eqb sep) needle = false ->
  startswith needle (x ++ sep :: rest) = startswith needle x.
Proof.
  revert x; induction needle as [|c needle IH]; intros x Hsep; [reflexivity|].
  cbn [existsb] in Hsep. apply orb_false_iff in Hsep. destruct Hsep as [Hc Hn].
  destruct x as [|y x]; cbn [app startswith].
  - rewrite Z.eqb_sym, Hc. reflexivity.
  - rewrite (IH x Hn). reflexivity.
Qed.

Lemma contains_nil (needle : str) : needle <> [] -> contains needle [] = false.
Proof. destruct needle; [contradiction | reflexivity]. Qed.

(** A needle free of the separator occurs in [x + sep + rest] exactly when it
    occurs in [x] or in [rest]. *)
Lemma contains_sep (needle x rest : str) (sep : char) :
  needle <> [] -> existsb (Z.eqb sep) needle = false ->
  contains needle (x ++ sep :: rest) = contains needle x || contains needle rest.
Proof.
  intros Hne Hsep. induction x as [|y x IH].
  - pose proof (startswith_sep needle [] rest sep Hsep) as H.
    cbn [app contains] in *. rewrite H.
    destruct needle; [contradiction | reflexivity].
  - pose proof (startswith_sep needle (y :: x) rest sep Hsep) as H.
    cbn [app contains] in *. rewrite IH, H.
    rewrite !orb_assoc. reflexivity.
Qed.

Lemma contains_join (needle : str) (sep : char) (xs : list str) :
  needle <> [] -> existsb (Z.eqb sep) needle = false ->
  contains needle (join [sep] xs) = existsb (contains needle) xs.
Proof.
  intros Hne Hsep. induction xs as [|x xs IH].
  - apply contains_nil. exact Hne.
  - destruct xs as [|x' xs].
    + cbn [join existsb]. rewrite orb_false_r. reflexivity.
    + change (join [sep] (x :: x' :: xs)) with (x ++ sep :: join [sep] (x' :: xs)).
      rewrite (contains_sep needle x _ sep Hne Hsep), IH. reflexivity.
Qed.

(** The guard marker is in the joined context exactly when one of the
    window's lines carries it. *)
Lemma guard_in_context (lines : list str) (i : nat) :
  contains (lit "onlyOwner") (context lines i) = guard_in_window lines i.
Proof.
  unfold context, guard_in_window, has_guard.
  apply contains_join; [discriminate | reflexivity].
Qed.

Lemma enumerate_nth {A} (xs : list A) (start i : nat) (x : A) :
  In (i, x) (enumerate start xs) <->
  (start <= i)%nat /\ nth_error xs (i - start) = Some x.
Proof.
  revert start; induction xs as [|y xs IH]; intros start; cbn [enumerate In].
  - split; [contradiction|]. intros [_ H]. destruct (i - start)%nat; discriminate.
  - rewrite IH. split.
    + intros [E | [Hle Hn]].
      * injection E as -> ->. rewrite Nat.sub_diag. split; [lia | reflexivity].
      * split; [lia|]. replace (i - start)%nat with (S (i - S start)) by lia.
        exact Hn.
    + intros [Hle Hn]. destruct (Nat.eq_dec i start) as [->|Hne].
      * left. rewrite Nat.sub_diag in Hn. injection Hn as ->. reflexivity.
      * right. split; [lia|].
        replace (i - start)%nat with (S (i - S start)) in Hn by lia. exact Hn.
Qed.

Lemma skipn_nth_error {A} (xs : list A) (n : nat) (x : A) :
  nth_error xs n = Some x -> skipn n xs = x :: skipn (S n) xs.
Proof.
  revert xs; induction n as [|n IH]; intros [|y xs]; cbn; try discriminate.
  - intros E. injection E as ->. reflexivity.
  - intros E. apply (IH xs E).
Qed.

(** The window of a numbered line is the line and the three after it. *)
Lemma window_of_line (lines : list str) (i : nat) (line : str) :
  In (i, line) (enumerate 1 lines) ->
  slice (i - 1) (i + 3) lines = line :: firstn 3 (skipn i lines).
Proof.
  intros H. apply enumerate_nth in H. destruct H as [Hle Hn].
  unfold slice. replace (i + 3 - (i - 1))%nat with 4%nat by lia.
  rewrite (skipn_nth_error lines (i - 1) line Hn).
  replace (S (i - 1)) with i by lia. reflexivity.
Qed.

Lemma flat_map_if {A B} (p : A -> bool) (g : A -> B) (xs : list A) :
  flat_map (fun x => if p x then [g x] else []) xs = map g (filter p xs).
Proof.
  induction xs as [|x xs IH]; [reflexivity|].
  cbn [flat_map filter]. destruct (p x); cbn; rewrite IH; reflexivity.
Qed.

Section ScannerClaims.

Variable uni_alnum : char -> bool.

Local Abbreviation is_init := (is_init_line uni_alnum).
Local Abbreviation is_call := (is_setter_call uni_alnum).
Local Abbreviation grep := (grep_patterns uni_alnum).

Local Abbreviation setter_entries := (Spec.setter_entries uni_alnum).

Lemma scan_setters_fold (lines : list str) (i : nat) (line : str)
      (setters : list str) (f : Findings) :
  fold_left (scan_setter uni_alnum lines i line) setters f
  = {| init_functions := init_functions f;
       unprotected_inits := unprotected_inits f;
       unprotected_role_setters :=
         unprotected_role_setters f ++
         flat_map (fun setter =>
                     if is_call setter line && negb (guard_in_window lines i)
                     then [finding i line] else [])
                  setters;
       internal_transfer_calls := internal_transfer_calls f |}.
Proof.
  revert f; induction setters as [|setter setters IH]; intros f;
    cbn [fold_left flat_map].
  - rewrite app_nil_r. destruct f; reflexivity.
  - rewrite IH. unfold scan_setter. rewrite guard_in_context.
    generalize (finding i line). intros entry.
    destruct (is_call setter line); cbn [andb];
      [destruct (guard_in_window lines i); cbn [negb]|];
      cbn; rewrite <- ?app_assoc; reflexivity.
Qed.

(** What one iteration of the loop appends to each list. *)
Lemma scan_line_appends (lines : list str) (f : Findings) (il : nat * str) :
  In il (enumerate 1 lines) ->
  scan_line uni_alnum lines f il
  = {| init_functions :=
         init_functions f ++ (if is_init (snd il) then [located il] else []);
       unprotected_inits :=
         unprotected_inits f ++
         (if is_init (snd il) && negb (guard_in_window lines (fst il))
          then [located il] else []);
       unprotected_role_setters :=
         unprotected_role_setters f ++ setter_entries lines il;
       internal_transfer_calls :=
         internal_transfer_calls f ++
         (if Re.search uni_alnum (lit "\b_transfer\s*\(") (snd il)
          then [located il] else []) |}.
Proof.
  destruct il as [i line]. intros Hin. unfold scan_line.
  rewrite scan_setters_fold. unfold setter_entries, located. cbn [fst snd].
  unfold scan_transfer, scan_init. rewrite guard_in_context.
  assert (Hself : has_guard line = true -> guard_in_window lines i = true).
  { intros Hg. unfold guard_in_window.
    rewrite (window_of_line lines i line Hin). cbn [existsb]. rewrite Hg.
    reflexivity. }
  fold (has_guard line). generalize (finding i line). intros entry.
  destruct (is_init line); cbn [andb];
    destruct (Re.search uni_alnum _ line);
    destruct (has_guard line) eqn:Hg; cbn [negb];
    try rewrite (Hself eq_refl);
    destruct (guard_in_window lines i); cbn [negb];
    cbn; rewrite ?app_nil_r; reflexivity.
Qed.

Lemma scan_lines_fold (lines : list str) (ils : list (nat * str)) (f : Findings) :
  (forall il, In il ils -> In il (enumerate 1 lines)) ->
  fold_left (scan_line uni_alnum lines) ils f
  = {| init_functions :=
         init_functions f ++
         map located (filter (fun il => is_init (snd il)) ils);
       unprotected_inits :=
         unprotected_inits f ++
         map located
             (filter (fun il => is_init (snd il) &&
                                negb (guard_in_window lines (fst il))) ils);
       unprotected_role_setters :=
         unprotected_role_setters f ++ flat_map (setter_entries lines) ils;
       internal_transfer_calls :=
         internal_transfer_calls f ++
         map located
             (filter (fun il => Re.search uni_alnum (lit "\b_transfer\s*\(")
                                          (snd il)) ils) |}.
Proof.
  revert f; induction ils as [|il ils IH]; intros f Hsub; cbn [fold_left].
  - cbn. rewrite !app_nil_r. destruct f; reflexivity.
  - rewrite IH by (intros x Hx; apply Hsub; right; exact Hx).
    rewrite (scan_line_appends lines f il) by (apply Hsub; left; reflexivity).
    cbn [init_functions unprotected_inits unprotected_role_setters
         internal_transfer_calls filter flat_map].
    set (entry := located il). set (entries := setter_entries lines il).
    destruct (is_init (snd il)); cbn [andb];
      destruct (guard_in_window lines (fst il)); cbn [negb];
      destruct (Re.search uni_alnum _ (snd il));
      cbn [map]; rewrite <- ?app_assoc; cbn [app]; reflexivity.
Qed.

(** The four lists of a scan, line by line. *)
Lemma grep_patterns_lists (text : str) :
  let lines := splitlines text in
  grep text
  = {| init_functions :=
         map located (filter (fun il => is_init (snd il)) (enumerate 1 lines));
       unprotected_inits :=
         map located
             (filter (fun il => is_init (snd il) &&
                                negb (guard_in_window lines (fst il)))
                     (enumerate 1 lines));
       unprotected_role_setters :=
         flat_map (setter_entries lines) (enumerate 1 lines);
       internal_transfer_calls :=
         map located
             (filter (fun il => Re.search uni_alnum (lit "\b_transfer\s*\(")
                                          (snd il))
                     (enumerate 1 lines)) |}.
Proof.
  cbv zeta. unfold grep_patterns.
  rewrite scan_lines_fold by auto. reflexivity.
Qed.

End ScannerClaims.

(** ** What the three patterns match *)

Section Patterns.

Variable uni_alnum : char -> bool.

Local Abbreviation match_here := (Re.match_here uni_alnum).
Local Abbreviation search_from := (Re.search_from uni_alnum).
Local Abbreviation word_before := (Re.word_before uni_alnum).
Local Abbreviation word_after := (Re.word_after uni_alnum).

Lemma last_char_app (prev : option char) (a b : str) :
  last_char prev (a ++ b) = last_char (last_char prev a) b.
Proof. unfold last_char. apply fold_left_app. Qed.

Lemma match_literal (w : str) (r : Re.regex) (prev : option char) (s : str) :
  match_here (literal w ++ r) prev s = true <->
  exists s', s = w ++ s' /\ match_here r (last_char prev w) s' = true.
Proof.
  revert prev s; induction w as [|c w IH]; intros prev s.
  - cbn. split; [eauto | intros [s' [-> H]]; exact H].
  - cbn [literal map app Re.match_here]. destruct s as [|d s].
    + split; [discriminate | intros [s' [E _]]; discriminate].
    + cbn [Re.atom_matches]. rewrite andb_true_iff, Z.eqb_eq.
      fold (literal w). rewrite IH. split.
      * intros [-> [s' [-> H]]]. exists s'. auto.
      * intros [s' [E H]]. injection E as -> ->. eauto.
Qed.

Lemma match_star (a : Re.atom) (r : Re.regex) (prev : option char) (s : str) :
  match_here (Re.Star a :: r) prev s = true <->
  exists ws s', s = ws ++ s' /\
                forallb (Re.atom_matches a) ws = true /\
                match_here r (last_char prev ws) s' = true.
Proof.
  split.
  - revert prev; induction s as [|c s IH]; intros prev; cbn [Re.match_here].
    + intros H. exists [], []. auto.
    + rewrite orb_true_iff, andb_true_iff. intros [[Hc Hs] | H].
      * apply IH in Hs. destruct Hs as [ws [s' [-> [Hws H]]]].
        exists (c :: ws), s'. cbn [forallb]. rewrite Hc, Hws. auto.
      * exists [], (c :: s). auto.
  - intros [ws [s' [-> [Hws H]]]]. revert prev Hws H.
    induction ws as [|c ws IH]; intros prev Hws H.
    + cbn [app last_char fold_left] in *. destruct s' as [|d s'];
        cbn [Re.match_here]; [exact H|].
      rewrite H. apply orb_true_r.
    + cbn [forallb] in Hws. apply andb_true_iff in Hws. destruct Hws as [Hc Hws].
      cbn [app Re.match_here]. rewrite Hc. cbn [andb].
      apply orb_true_iff. left. apply (IH (Some c) Hws H).
Qed.

Lemma match_plus (a : Re.atom) (r : Re.regex) (prev : option char) (s : str) :
  match_here (Re.Plus a :: r) prev s = true <->
  exists ws s', s = ws ++ s' /\ ws <> [] /\
                forallb (Re.atom_matches a) ws = true /\
                match_here r (last_char prev ws) s' = true.
Proof.
  destruct s as [|c s].
  - cbn [Re.match_here]. split; [discriminate|].
    intros [ws [s' [E [Hne _]]]]. destruct ws; [contradiction | discriminate].
  - change (match_here (Re.Plus a :: r) prev (c :: s))
      with (Re.atom_matches a c && match_here (Re.Star a :: r) (Some c) s).
    rewrite andb_true_iff, match_star. split.
    + intros [Hc [ws [s' [-> [Hws H]]]]]. exists (c :: ws), s'.
      cbn [forallb]. rewrite Hc, Hws. repeat split; auto. discriminate.
    + intros [[|d ws] [s' [E [Hne [Hws H]]]]]; [contradiction|].
      injection E as -> ->. cbn [forallb] in Hws.
      apply andb_true_iff in Hws. destruct Hws as [Hc Hws].
      split; [exact Hc|]. exists ws, s'. auto.
Qed.

Lemma search_from_spec (r : Re.regex) (prev : option char) (s : str) :
  search_from r prev s = true <->
  exists pre s', s = pre ++ s' /\ match_here r (last_char prev pre) s' = true.
Proof.
  revert prev; induction s as [|c s IH]; intros prev; cbn [Re.search_from].
  - rewrite orb_false_r. split.
    + intros H. exists [], []. auto.
    + intros [pre [s' [E H]]]. symmetry in E. apply app_eq_nil in E.
      destruct E as [-> ->]. exact H.
  - rewrite orb_true_iff, IH. split.
    + intros [H | [pre [s' [-> H]]]].
      * exists [], (c :: s). auto.
      * exists (c :: pre), s'. auto.
    + intros [[|d pre] [s' [E H]]].
      * left. cbn in E, H. subst s'. exact H.
      * right. injection E as -> ->. exists pre, s'. auto.
Qed.

(** [\bname\s*\(] for a name made of plain characters that begins a word. *)
Lemma search_call_shaped (name line : str) (c : char) (rest : str) :
  name = c :: rest -> Re.is_word uni_alnum c = true ->
  Re.compile (S (length (lit "\b" ++ name ++ lit "\s*\(")))
             (lit "\b" ++ name ++ lit "\s*\(")
  = Some (Re.WordBoundary
            :: literal name ++ [Re.Star Re.Space; Re.One (Re.Lit 40)]) ->
  Re.search uni_alnum (lit "\b" ++ name ++ lit "\s*\(") line = true <->
  call_shaped uni_alnum name line.
Proof.
  intros Hname Hword Hcompile. unfold Re.search, call_shaped.
  rewrite Hcompile, search_from_spec. split.
  - intros [pre [s' [-> H]]]. cbn [Re.match_here] in H.
    apply andb_true_iff in H. destruct H as [Hb H].
    apply match_literal in H. destruct H as [s1 [-> H]].
    apply match_star in H. destruct H as [ws [s2 [-> [Hws H]]]].
    destruct s2 as [|d post]; [discriminate|].
    cbn [Re.match_here Re.atom_matches] in H. rewrite andb_true_r in H.
    apply Z.eqb_eq in H. subst d.
    exists pre, ws, post. repeat split; auto.
    rewrite Hname in Hb. cbn [app Re.word_after] in Hb. rewrite Hword in Hb.
    destruct (word_before (last_char None pre)); [discriminate | reflexivity].
  - intros [pre [ws [post [-> [Hws Hb]]]]].
    exists pre, (name ++ ws ++ 40 :: post). split; [reflexivity|].
    cbn [Re.match_here]. apply andb_true_iff. split.
    + rewrite Hname. cbn [app Re.word_after]. rewrite Hword, Hb. reflexivity.
    + apply match_literal. exists (ws ++ 40 :: post). split; [reflexivity|].
      apply match_star. exists ws, (40 :: post). repeat split; auto.
Qed.

(** [\bfunction\s+initialize\b] *)
Lemma search_declares_initialize (line : str) :
  Re.search uni_alnum (lit "\bfunction\s+initialize\b") line = true <->
  declares_initialize uni_alnum line.
Proof.
  unfold Re.search, declares_initialize.
  change (Re.compile _ (lit "\bfunction\s+initialize\b"))
    with (Some (Re.WordBoundary
                  :: literal (lit "function")
                  ++ Re.Plus Re.Space
                  :: literal (lit "initialize") ++ [Re.WordBoundary])).
  rewrite search_from_spec. split.
  - intros [pre [s' [-> H]]]. cbn [Re.match_here] in H.
    apply andb_true_iff in H. destruct H as [Hb H].
    apply match_literal in H. destruct H as [s1 [-> H]].
    apply match_plus in H. destruct H as [ws [s2 [-> [Hne [Hws H]]]]].
    apply match_literal in H. destruct H as [post [-> H]].
    cbn [Re.match_here] in H. rewrite andb_true_r in H.
    change (word_before (last_char _ (lit "initialize"))) with true in H.
    exists pre, ws, post. repeat split; auto.
    + change (word_after (lit "function" ++ _)) with true in Hb.
      destruct (word_before (last_char None pre)); [discriminate | reflexivity].
    + destruct (word_after post); [discriminate | reflexivity].
  - intros [pre [ws [post [-> [Hne [Hws [Hb Ha]]]]]]].
    exists pre, (lit "function" ++ ws ++ lit "initialize" ++ post).
    split; [reflexivity|]. cbn [Re.match_here]. apply andb_true_iff. split.
    + change (word_after (lit "function" ++ _)) with true. rewrite Hb. reflexivity.
    + apply match_literal. exists (ws ++ lit "initialize" ++ post).
      split; [reflexivity|]. apply match_plus.
      exists ws, (lit "initialize" ++ post). repeat split; auto.
      apply match_literal. exists post. split; [reflexivity|].
      cbn [Re.match_here]. rewrite andb_true_r.
      change (word_before (last_char _ (lit "initialize"))) with true.
      rewrite Ha. reflexivity.
Qed.

End Patterns.

Section ScannerTheorems.

Variable uni_alnum : char -> bool.

Local Abbreviation is_init := (is_init_line uni_alnum).
Local Abbreviation is_call := (is_setter_call uni_alnum).
Local Abbreviation grep := (grep_patterns uni_alnum).

Lemma is_init_line_spec (line : str) :
  is_init line = true <->
  declares_initialize uni_alnum line \/
  contains (lit "initializeV2_1") line = true \/
  contains (lit "initializeV2(") line = true.
Proof.
  unfold is_init_line. rewrite !orb_true_iff, search_declares_initialize. tauto.
Qed.

Lemma is_setter_call_spec (setter line : str) :
  In setter ROLE_SETTERS ->
  is_call setter line = true <-> call_shaped uni_alnum setter line.
Proof.
  unfold ROLE_SETTERS. cbn [In]. unfold is_setter_call.
  intros [<- | [<- | [<- | [<- | [<- | []]]]]];
    (eapply search_call_shaped;
     [reflexivity | reflexivity | vm_compute; reflexivity]).
Qed.

(** The window of a numbered line, line by line. *)
Lemma guard_in_window_lines (lines : list str) (i : nat) (line : str) :
  In (i, line) (enumerate 1 lines) ->
  nth_error lines (i - 1) = Some line /\
  guard_in_window lines i
  = has_guard line || existsb has_guard (firstn 3 (skipn i lines)).
Proof.
  intros Hin. split.
  - apply enumerate_nth in Hin. tauto.
  - unfold guard_in_window. rewrite (window_of_line lines i line Hin). reflexivity.
Qed.

(** A guard on one of the three lines after a numbered line is in its
    window. *)
Lemma guard_on_following_line (lines : list str) (i k : nat) (line g : str) :
  In (i, line) (enumerate 1 lines) -> (k < 3)%nat ->
  nth_error lines (i + k) = Some g -> has_guard g = true ->
  guard_in_window lines i = true.
Proof.
  intros Hin Hk Hg Hguard.
  destruct (guard_in_window_lines lines i line Hin) as [_ ->].
  apply orb_true_iff. right. apply existsb_exists. exists g. split; [|exact Hguard].
  assert (E : nth_error (firstn 3 (skipn i lines)) k = Some g).
  { rewrite nth_error_firstn.
    destruct (Nat.ltb_spec k 3); [|lia].
    rewrite nth_error_skipn. exact Hg. }
  apply nth_error_In in E. exact E.
Qed.

(** The window does not reach beyond the third line after the numbered one. *)
Lemma guard_in_window_local (lines lines' : list str) (i : nat) :
  firstn (i + 3) lines = firstn (i + 3) lines' ->
  guard_in_window lines i = guard_in_window lines' i.
Proof.
  intros E. unfold guard_in_window, slice.
  assert (S : forall xs : list str,
             firstn (i + 3 - (i - 1)) (skipn (i - 1) xs)
             = skipn (i - 1) (firstn (i + 3) xs)).
  { intros xs. rewrite skipn_firstn_comm. reflexivity. }
  rewrite !S, E. reflexivity.
Qed.

(** C2: every line that declares a function [initialize] at word
    boundaries, or contains [initializeV2_1] or [initializeV2(], is recorded
    in [init_functions] under its 1-based number with its text trimmed; it
    is also recorded in [unprotected_inits] exactly when no line of its
    window, which is the line itself and the three lines after it (fewer at
    the end of the text), contains [onlyOwner]; a guard on the next line
    therefore keeps it out of [unprotected_inits]. *)
Theorem grep_patterns_init_functions (text : str) :
  let lines := splitlines text in
  let f := grep text in
  (forall line,
      is_init line = true <->
      declares_initialize uni_alnum line \/
      contains (lit "initializeV2_1") line = true \/
      contains (lit "initializeV2(") line = true) /\
  init_functions f
  = map located (filter (fun il => is_init (snd il)) (enumerate 1 lines)) /\
  unprotected_inits f
  = map located
        (filter (fun il => is_init (snd il) &&
                           negb (guard_in_window lines (fst il)))
                (enumerate 1 lines)) /\
  (forall i line,
      located (i, line) = lit "L" ++ format_nat i ++ lit ": " ++ strip line) /\
  (forall i line,
      In (i, line) (enumerate 1 lines) ->
      nth_error lines (i - 1) = Some line /\
      guard_in_window lines i
      = has_guard line || existsb has_guard (firstn 3 (skipn i lines))) /\
  (forall i line next,
      In (i, line) (enumerate 1 lines) ->
      nth_error lines i = Some next -> has_guard next = true ->
      guard_in_window lines i = true).
Proof.
  cbv zeta. rewrite (grep_patterns_lists uni_alnum text).
  cbn [init_functions unprotected_inits].
  split; [exact is_init_line_spec|].
  split; [reflexivity|]. split; [reflexivity|]. split; [reflexivity|].
  split; [apply guard_in_window_lines|].
  intros i line next Hin Hnext Hguard.
  apply (guard_on_following_line _ i 0 line next Hin); try lia; auto.
  rewrite Nat.add_0_r. exact Hnext.
Qed.

(** C3: a line with a call-shaped occurrence of one of the five setter
    names contributes an entry to [unprotected_role_setters] for each such
    name exactly when no line of its window, the line and the three after
    it, contains [onlyOwner]; a guard on the fourth line of the window
    suppresses the entry, and the window ends there, so a guard on the
    fifth line does not. *)
Theorem grep_patterns_role_setters (text : str) :
  let lines := splitlines text in
  let f := grep text in
  ROLE_SETTERS = [lit "updateOracle"; lit "updateBlacklister";
                  lit "updatePauser"; lit "updateMasterMinter";
                  lit "updateRescuer"] /\
  (forall setter line,
      In setter ROLE_SETTERS ->
      is_call setter line = true <-> call_shaped uni_alnum setter line) /\
  unprotected_role_setters f
  = flat_map (fun il =>
                flat_map (fun setter =>
                            if is_call setter (snd il) &&
                               negb (guard_in_window lines (fst il))
                            then [located il] else [])
                         ROLE_SETTERS)
             (enumerate 1 lines) /\
  (forall i line,
      In (i, line) (enumerate 1 lines) ->
      nth_error lines (i - 1) = Some line /\
      guard_in_window lines i
      = has_guard line || existsb has_guard (firstn 3 (skipn i lines))) /\
  (forall i line fourth,
      In (i, line) (enumerate 1 lines) ->
      nth_error lines (i + 2) = Some fourth -> has_guard fourth = true ->
      guard_in_window lines i = true) /\
  (forall i lines',
      firstn (i + 3) lines = firstn (i + 3) lines' ->
      guard_in_window lines i = guard_in_window lines' i) /\
  (forall setter,
      In setter ROLE_SETTERS ->
      unprotected_role_setters
        (grep (setter ++ lit "(a);" ++ [10; 10; 10] ++ lit "// onlyOwner"))
      = [] /\
      unprotected_role_setters
        (grep (setter ++ lit "(a);" ++ [10; 10; 10; 10] ++ lit "// onlyOwner"))
      = [lit "L1: " ++ setter ++ lit "(a);"]).
Proof.
  cbv zeta. rewrite (grep_patterns_lists uni_alnum text).
  cbn [unprotected_role_setters].
  split; [reflexivity|]. split; [exact is_setter_call_spec|].
  split; [reflexivity|]. split; [apply guard_in_window_lines|].
  split; [|split].
  - intros i line fourth Hin Hfourth Hguard.
    apply (guard_on_following_line _ i 2 line fourth Hin); try lia; auto.
  - intros i lines'. apply guard_in_window_local.
  - unfold ROLE_SETTERS. cbn [In].
    intros setter [<- | [<- | [<- | [<- | [<- | []]]]]];
      split; vm_compute; reflexivity.
Qed.

End ScannerTheorems.

(** The line of the design document, unguarded and guarded on the next
    line. *)
Example grep_patterns_initialize_guarded_next_line :
  let unguarded := lit "function initialize() public { ... }" in
  let guarded := unguarded ++ [10] ++ lit "  onlyOwner" in
  let entry := lit "L1: function initialize() public { ... }" in
  init_functions (grep_patterns (fun _ => false) unguarded) = [entry] /\
  unprotected_inits (grep_patterns (fun _ => false) unguarded) = [entry] /\
  init_functions (grep_patterns (fun _ => false) guarded) = [entry] /\
  unprotected_inits (grep_patterns (fun _ => false) guarded) = [].
Proof. vm_compute. auto. Qed.

(** ** The JSON scanner never runs out of fuel *)

Import Json.

Lemma skip_ws_length (s : str) : (length (skip_ws s) <= length s)%nat.
Proof.
  induction s as [|c s IH]; cbn [skip_ws]; [lia|].
  destruct (is_ws c); cbn [length]; lia.
Qed.

Lemma span_digits_length (s d r : str) :
  span_digits s = (d, r) -> (length r <= length s)%nat.
Proof.
  revert d r; induction s as [|c s IH]; intros d r; cbn [span_digits].
  - intros E. injection E as <- <-. lia.
  - destruct (is_digit c).
    + destruct (span_digits s) as [d' r'] eqn:Hs. intros E. injection E as <- <-.
      specialize (IH d' r' eq_refl). cbn [length]. lia.
    + intros E. injection E as <- <-. lia.
Qed.

Lemma scanstring_rest (s : str) :
  forall st pending out t rest,
    scanstring st pending out s = POk t rest -> (length rest < length s)%nat.
Proof.
  induction s as [|c s IH]; intros st pending out t rest; cbn [scanstring];
    [discriminate|].
  assert (Hstep : forall st' p' o', scanstring st' p' o' s = POk t rest ->
                                    (length rest < length (c :: s))%nat).
  { intros st' p' o' H. apply IH in H. cbn [length]. lia. }
  destruct st as [| |k acc].
  - destruct (c =? 34).
    + intros E. injection E as _ <-. cbn [length]. lia.
    + destruct (c =? 92); [apply Hstep|].
      destruct (c <=? 31); [discriminate | apply Hstep].
  - destruct (c =? 117); [apply Hstep|].
    destruct (simple_escape c); [apply Hstep | discriminate].
  - destruct (is_hex c); [|discriminate].
    destruct k as [|[|k]]; try apply Hstep;
      (destruct pending as [h|];
       [destruct (is_low_surrogate _); [apply Hstep|];
        destruct (is_high_surrogate _); apply Hstep
       |destruct (is_high_surrogate _); apply Hstep]).
Qed.

Lemma scanstring_fuel (s : str) :
  forall st pending out, scanstring st pending out s <> PFuel.
Proof.
  induction s as [|c s IH]; intros st pending out; cbn [scanstring];
    [discriminate|].
  destruct st as [| |k acc].
  - destruct (c =? 34); [discriminate|].
    destruct (c =? 92); [apply IH|].
    destruct (c <=? 31); [discriminate | apply IH].
  - destruct (c =? 117); [apply IH|].
    destruct (simple_escape c); [apply IH | discriminate].
  - destruct (is_hex c); [|discriminate].
    destruct k as [|[|k]]; try apply IH;
      (destruct pending as [h|];
       [destruct (is_low_surrogate _); [apply IH|];
        destruct (is_high_surrogate _); apply IH
       |destruct (is_high_surrogate _); apply IH]).
Qed.

Lemma scan_int_rest (s i rest : str) :
  scan_int s = Some (i, rest) -> (length rest < length s)%nat.
Proof.
  unfold scan_int. destruct s as [|c r]; [discriminate|].
  destruct (c =? 48).
  - intros E. injection E as _ <-. cbn [length]. lia.
  - destruct (is_digit c); [|discriminate].
    destruct (span_digits r) as [d r'] eqn:Hd. intros E. injection E as _ <-.
    apply span_digits_length in Hd. cbn [length]. lia.
Qed.

Lemma scan_frac_rest (s f rest : str) :
  scan_frac s = (f, rest) -> (length rest <= length s)%nat.
Proof.
  unfold scan_frac. destruct s as [|c r].
  - intros E. injection E as _ <-. lia.
  - destruct (c =? 46).
    + destruct (span_digits r) as [[|d ds] r'] eqn:Hd.
      * intros E. injection E as _ <-. lia.
      * intros E. injection E as _ <-. apply span_digits_length in Hd.
        cbn [length]. lia.
    + intros E. injection E as _ <-. lia.
Qed.

Lemma scan_exp_rest (s e rest : str) :
  scan_exp s = (e, rest) -> (length rest <= length s)%nat.
Proof.
  unfold scan_exp. destruct s as [|c r].
  - intros E. injection E as _ <-. lia.
  - destruct ((c =? 101) || (c =? 69)).
    + destruct r as [|c' r'].
      * cbn [span_digits]. intros E. injection E as _ <-. lia.
      * destruct ((c' =? 43) || (c' =? 45)).
        -- destruct (span_digits r') as [[|d ds] r2] eqn:Hd.
           ++ intros E. injection E as _ <-. lia.
           ++ intros E. injection E as _ <-. apply span_digits_length in Hd.
              cbn [length]. lia.
        -- destruct (span_digits (c' :: r')) as [[|d ds] r2] eqn:Hd.
           ++ intros E. injection E as _ <-. lia.
           ++ intros E. injection E as _ <-. apply span_digits_length in Hd.
              cbn [length] in *. lia.
    + intros E. injection E as _ <-. lia.
Qed.

Lemma scan_number_rest (s : str) (v : value) (rest : str) :
  scan_number s = POk v rest -> (length rest < length s)%nat.
Proof.
  unfold scan_number.
  set (p := match s with
            | c :: r => if c =? 45 then ([c], r) else ([], s)
            | [] => ([], s)
            end).
  assert (Hp : (length (snd p) <= length s)%nat).
  { subst p. destruct s as [|c r]; [cbn; lia|].
    destruct (c =? 45); cbn [snd length]; lia. }
  destruct p as [sign s1]. cbn [snd] in Hp.
  destruct (scan_int s1) as [[i s2]|] eqn:Hi; [|discriminate].
  destruct (scan_frac s2) as [f s3] eqn:Hf.
  destruct (scan_exp s3) as [e s4] eqn:He.
  intros E. injection E as _ <-.
  apply scan_int_rest in Hi. apply scan_frac_rest in Hf.
  apply scan_exp_rest in He. lia.
Qed.

Lemma scan_number_fuel (s : str) : scan_number s <> PFuel.
Proof.
  unfold scan_number.
  destruct (match s with
            | c :: r => if c =? 45 then ([c], r) else ([], s)
            | [] => ([], s)
            end) as [sign s1].
  destruct (scan_int s1) as [[i s2]|]; [|discriminate].
  destruct (scan_frac s2) as [f s3]. destruct (scan_exp s3) as [e s4].
  discriminate.
Qed.

Lemma scan_constant_rest (name : str) (v w : value) (s rest : str) :
  name <> [] ->
  scan_constant name v s = Some (POk w rest) -> (length rest < length s)%nat.
Proof.
  intros Hne. unfold scan_constant.
  destruct (startswith name s) eqn:Hs; [|discriminate].
  intros E. injection E as _ <-.
  apply startswith_spec in Hs. destruct Hs as [tail ->].
  rewrite length_skipn, length_app.
  destruct name; [contradiction | cbn [length]; lia].
Qed.

Lemma scan_constant_shape (name : str) (v : value) (s : str) (res : presult value) :
  scan_constant name v s = Some res -> exists rest, res = POk v rest.
Proof.
  unfold scan_constant. destruct (startswith name s); [|discriminate].
  intros E. injection E as <-. eauto.
Qed.

Lemma scan_atom_ok (c : char) (s : str) :
  scan_atom c s <> PFuel /\
  forall v rest, scan_atom c s = POk v rest -> (length rest < length s)%nat.
Proof.
  unfold scan_atom. cbv zeta.
  assert (K : forall name v0,
             name <> [] ->
             match scan_constant name v0 s with
             | Some res => res
             | None => scan_number s
             end <> PFuel /\
             forall v rest,
               match scan_constant name v0 s with
               | Some res => res
               | None => scan_number s
               end = POk v rest -> (length rest < length s)%nat).
  { intros name v0 Hne. destruct (scan_constant name v0 s) as [res|] eqn:Hc.
    - destruct (scan_constant_shape _ _ _ _ Hc) as [rest0 ->]. split; [discriminate|].
      intros v rest E. injection E as <- <-.
      apply (scan_constant_rest name v0 v0 s rest0 Hne Hc).
    - split; [apply scan_number_fuel | apply scan_number_rest]. }
  destruct (c =? 110); [apply K; discriminate|].
  destruct (c =? 116); [apply K; discriminate|].
  destruct (c =? 102); [apply K; discriminate|].
  destruct (c =? 78); [apply K; discriminate|].
  destruct (c =? 73); [apply K; discriminate|].
  destruct (c =? 45); [apply K; discriminate|].
  split; [apply scan_number_fuel | apply scan_number_rest].
Qed.

Lemma scan_once_unfold (fuel : nat) (c : char) (r : str) :
  scan_once (S fuel) (c :: r)
  = if c =? 34 then
      match scanstring Plain None [] r with
      | POk t rest => POk (JString t) rest
      | PErr => PErr
      | PFuel => PFuel
      end
    else if c =? 123 then
      match skip_ws r with
      | c' :: rest =>
          if c' =? 125 then POk (JObject []) rest
          else scan_members fuel [] (c' :: rest)
      | [] => PErr
      end
    else if c =? 91 then
      match skip_ws r with
      | c' :: rest =>
          if c' =? 93 then POk (JArray []) rest
          else scan_elements fuel [] (c' :: rest)
      | [] => PErr
      end
    else scan_atom c (c :: r).
Proof. reflexivity. Qed.

(** With fuel beyond twice the length of the text, the scanner stops for a
    reason other than fuel; and what it returns is shorter than what it was
    given. *)
Lemma scan_fuel (fuel : nat) :
  (forall s, (2 * length s < fuel)%nat -> scan_once fuel s <> PFuel) /\
  (forall s v rest, scan_once fuel s = POk v rest ->
                    (length rest < length s)%nat) /\
  (forall acc s, (2 * length s + 1 < fuel)%nat ->
                 scan_members fuel acc s <> PFuel) /\
  (forall acc s v rest, scan_members fuel acc s = POk v rest ->
                        (length rest < length s)%nat) /\
  (forall acc s, (2 * length s + 1 < fuel)%nat ->
                 scan_elements fuel acc s <> PFuel) /\
  (forall acc s v rest, scan_elements fuel acc s = POk v rest ->
                        (length rest < length s)%nat).
Proof.
  induction fuel as [|fuel [IHa [IHb [IHc [IHd [IHe IHf]]]]]].
  { repeat split; intros; try lia; discriminate. }
  split; [|split; [|split; [|split; [|split]]]].
  - intros [|c r] Hlen; [discriminate|]. rewrite scan_once_unfold.
    cbn [length] in Hlen.
    destruct (c =? 34).
    { pose proof (scanstring_fuel r Plain None []) as F.
      destruct (scanstring Plain None [] r); congruence. }
    destruct (c =? 123).
    { pose proof (skip_ws_length r) as L.
      destruct (skip_ws r) as [|c' rest]; [discriminate|].
      destruct (c' =? 125); [discriminate|]. apply IHc. lia. }
    destruct (c =? 91).
    { pose proof (skip_ws_length r) as L.
      destruct (skip_ws r) as [|c' rest]; [discriminate|].
      destruct (c' =? 93); [discriminate|]. apply IHe. lia. }
    apply scan_atom_ok.
  - intros [|c r] v rest; [discriminate|]. rewrite scan_once_unfold.
    destruct (c =? 34).
    { destruct (scanstring Plain None [] r) as [t rest'| |] eqn:Hs; try discriminate.
      intros E. injection E as _ <-. apply scanstring_rest in Hs.
      cbn [length]. lia. }
    destruct (c =? 123).
    { pose proof (skip_ws_length r) as L.
      destruct (skip_ws r) as [|c' rest']; [discriminate|].
      destruct (c' =? 125).
      - intros E. injection E as _ <-. cbn [length] in *. lia.
      - intros E. apply IHd in E. cbn [length] in *. lia. }
    destruct (c =? 91).
    { pose proof (skip_ws_length r) as L.
      destruct (skip_ws r) as [|c' rest']; [discriminate|].
      destruct (c' =? 93).
      - intros E. injection E as _ <-. cbn [length] in *. lia.
      - intros E. apply IHf in E. cbn [length] in *. lia. }
    apply scan_atom_ok.
  - intros acc [|q r] Hlen; cbn [scan_members]; [discriminate|].
    cbn [length] in Hlen.
    destruct (q =? 34); cbn [negb]; [|discriminate].
    pose proof (scanstring_fuel r Plain None []) as F.
    destruct (scanstring Plain None [] r) as [key r1| |] eqn:Hs;
      [|discriminate|congruence].
    apply scanstring_rest in Hs.
    pose proof (skip_ws_length r1) as L1.
    destruct (skip_ws r1) as [|colon r2]; [discriminate|].
    destruct (colon =? 58); cbn [negb]; [|discriminate].
    pose proof (skip_ws_length r2) as L2. cbn [length] in L1.
    assert (A : scan_once fuel (skip_ws r2) <> PFuel) by (apply IHa; lia).
    destruct (scan_once fuel (skip_ws r2)) as [v r3| |] eqn:Hv;
      [|discriminate|congruence].
    apply IHb in Hv. pose proof (skip_ws_length r3) as L3.
    destruct (skip_ws r3) as [|d r4]; [discriminate|].
    destruct (d =? 125); [discriminate|].
    destruct (d =? 44); [|discriminate].
    pose proof (skip_ws_length r4) as L4. cbn [length] in L3.
    apply IHc. lia.
  - intros acc [|q r] v rest; cbn [scan_members]; [discriminate|].
    destruct (q =? 34); cbn [negb]; [|discriminate].
    destruct (scanstring Plain None [] r) as [key r1| |] eqn:Hs;
      try discriminate.
    apply scanstring_rest in Hs.
    pose proof (skip_ws_length r1) as L1.
    destruct (skip_ws r1) as [|colon r2]; [discriminate|].
    destruct (colon =? 58); cbn [negb]; [|discriminate].
    pose proof (skip_ws_length r2) as L2. cbn [length] in L1.
    destruct (scan_once fuel (skip_ws r2)) as [v' r3| |] eqn:Hv;
      try discriminate.
    apply IHb in Hv. pose proof (skip_ws_length r3) as L3.
    destruct (skip_ws r3) as [|d r4]; [discriminate|].
    cbn [length] in L3.
    destruct (d =? 125).
    { intros E. injection E as _ <-. cbn [length]. lia. }
    destruct (d =? 44); [|discriminate].
    pose proof (skip_ws_length r4) as L4.
    intros E. apply IHd in E. cbn [length]. lia.
  - intros acc s Hlen. cbn [scan_elements].
    assert (A : scan_once fuel s <> PFuel) by (apply IHa; lia).
    destruct (scan_once fuel s) as [v r1| |] eqn:Hv;
      [|discriminate|congruence].
    apply IHb in Hv. pose proof (skip_ws_length r1) as L1.
    destruct (skip_ws r1) as [|d r2]; [discriminate|].
    destruct (d =? 93); [discriminate|].
    destruct (d =? 44); [|discriminate].
    pose proof (skip_ws_length r2) as L2. cbn [length] in L1.
    apply IHe. lia.
  - intros acc s v rest. cbn [scan_elements].
    destruct (scan_once fuel s) as [v' r1| |] eqn:Hv; try discriminate.
    apply IHb in Hv. pose proof (skip_ws_length r1) as L1.
    destruct (skip_ws r1) as [|d r2]; [discriminate|].
    cbn [length] in L1.
    destruct (d =? 93).
    { intros E. injection E as _ <-. lia. }
    destruct (d =? 44); [|discriminate].
    pose proof (skip_ws_length r2) as L2.
    intros E. apply IHf in E. lia.
Qed.

(** [json.loads] fails only on a syntax error, never for lack of fuel. *)
Lemma loads_fuel (s : str) :
  scan_once (S (2 * length s)) (skip_ws s) <> PFuel.
Proof.
  apply scan_fuel. pose proof (skip_ws_length s). lia.
Qed.

(** ** The source-tree expander *)





(** An entry that is not an object, a [content] that is not text, and a
    [sources] that is not a mapping make the expander raise. *)
Example expand_sources_malformed_sources :
  expand_sources {| SourceCode := Some (qlit "{'sources': {'A.sol': 1}}");
                    ContractName := None |} = Raised AttributeError /\
  expand_sources {| SourceCode := Some (qlit "{'sources': {'A.sol': {'content': null}}}");
                    ContractName := None |} = Raised TypeError /\
  expand_sources {| SourceCode := Some (qlit "{'sources': 1}");
                    ContractName := None |} = Raised AttributeError.
Proof. vm_compute. auto. Qed.

Lemma loads_double_brace (rest : str) :
  Json.loads (123 :: 123 :: rest) = Raised ValueError.
Proof. reflexivity. Qed.

Lemma rstrip_last (s : str) (c : char) :
  isspace c = false -> rstrip (s ++ [c]) = s ++ [c].
Proof.
  intros Hc. unfold rstrip. rewrite rev_app_distr. cbn [rev app lstrip].
  rewrite Hc. change (c :: rev s) with ([c] ++ rev s).
  rewrite rev_app_distr, rev_involutive. reflexivity.
Qed.

(** The doubly wrapped form of an object text [{body}]. *)
Lemma try_json_wrapped (body : str) (v : Json.value) :
  Json.loads (lit "{" ++ body ++ lit "}") = Returned v ->
  try_json (lit "{" ++ (lit "{" ++ body ++ lit "}") ++ lit "}") = v /\
  try_json (lit "{" ++ body ++ lit "}") = v.
Proof.
  intros Hloads. split.
  - unfold try_json.
    assert (Hstrip : strip (lit "{" ++ (lit "{" ++ body ++ lit "}") ++ lit "}")
                     = lit "{" ++ (lit "{" ++ body ++ lit "}") ++ lit "}").
    { unfold strip. change (lit "{") with [123]. change (lit "}") with [125].
      cbn [app lstrip].
      change (isspace 123) with false. cbv iota.
      change (123 :: 123 :: (body ++ [125]) ++ [125])
        with ((123 :: 123 :: body ++ [125]) ++ [125]).
      apply rstrip_last. reflexivity. }
    rewrite Hstrip.
    assert (Hstart : startswith (lit "{{")
                       (lit "{" ++ (lit "{" ++ body ++ lit "}") ++ lit "}") = true).
    { reflexivity. }
    assert (Hend : endswith (lit "}}")
                     (lit "{" ++ (lit "{" ++ body ++ lit "}") ++ lit "}") = true).
    { unfold endswith. change (lit "{") with [123]. change (lit "}") with [125].
      rewrite !rev_app_distr. reflexivity. }
    rewrite Hstart, Hend. cbn [andb].
    assert (Hslice : slice_1_m1 (lit "{" ++ (lit "{" ++ body ++ lit "}") ++ lit "}")
                     = lit "{" ++ body ++ lit "}").
    { unfold slice_1_m1. change (lit "{") with [123]. change (lit "}") with [125].
      cbn [app tl].
      change (123 :: (body ++ [125]) ++ [125])
        with ((123 :: body ++ [125]) ++ [125]).
      apply removelast_last. }
    rewrite Hslice.
    change (lit "{" ++ (lit "{" ++ body ++ lit "}") ++ lit "}")
      with (123 :: 123 :: (body ++ lit "}") ++ lit "}").
    cbn [try_candidates]. rewrite loads_double_brace.
    change (lit "{" ++ body ++ lit "}") with (123 :: body ++ lit "}") in *.
    rewrite Hloads. reflexivity.
  - unfold try_json.
    change (lit "{" ++ body ++ lit "}") with (123 :: body ++ lit "}") in *.
    cbn [try_candidates]. rewrite Hloads. reflexivity.
Qed.

(** The object [{"a":1}] parses and has no [sources]: expanding it gives
    one file that holds it, while expanding its doubly wrapped form gives
    one file that holds the wrapped text. *)
Lemma expand_sources_wrapped_differs :
  Json.loads (qlit "{'a':1}")
  = Returned (Json.JObject [(lit "a", Json.JNumber (lit "1"))]) /\
  expand_sources {| SourceCode := Some (qlit "{'a':1}"); ContractName := None |}
  = Returned [{| path := lit "Contract.sol"; text := qlit "{'a':1}" |}] /\
  expand_sources {| SourceCode := Some (lit "{" ++ qlit "{'a':1}" ++ lit "}");
                    ContractName := None |}
  = Returned [{| path := lit "Contract.sol"; text := qlit "{{'a':1}}" |}] /\
  expand_sources {| SourceCode := Some (lit "{" ++ qlit "{'a':1}" ++ lit "}");
                    ContractName := None |}
  <> expand_sources {| SourceCode := Some (qlit "{'a':1}");
                       ContractName := None |}.
Proof.
  split; [vm_compute; reflexivity|].
  split; [vm_compute; reflexivity|].
  split; [vm_compute; reflexivity|].
  vm_compute. discriminate.
Qed.

(** C6, amended: the two-file payload of the design document expands to the
    units [A.sol] and [B.sol] with texts [X] and [Y]; the plain text with
    hint [C] expands to the single unit [C.sol]; and for an object text
    [{...}] that parses to an object with a [sources] key, expanding its
    doubly wrapped form gives what expanding the text itself gives. *)
Theorem expand_sources_round_trip :
  expand_sources
    {| SourceCode :=
         Some (qlit "{'sources': {'A.sol': {'content': 'X'}, 'B.sol': {'content': 'Y'}}}");
       ContractName := None |}
  = Returned [{| path := lit "A.sol"; text := lit "X" |};
              {| path := lit "B.sol"; text := lit "Y" |}] /\
  expand_sources {| SourceCode := Some (lit "contract C {}");
                    ContractName := Some (lit "C") |}
  = Returned [{| path := lit "C.sol"; text := lit "contract C {}" |}] /\
  (forall (body : str) (members : list (str * Json.value)) (hint : option str),
      Json.loads (lit "{" ++ body ++ lit "}") = Returned (Json.JObject members) ->
      Json.dict_get (lit "sources") members <> None ->
      expand_sources
        {| SourceCode := Some (lit "{" ++ (lit "{" ++ body ++ lit "}") ++ lit "}");
           ContractName := hint |}
      = expand_sources {| SourceCode := Some (lit "{" ++ body ++ lit "}");
                          ContractName := hint |}).
Proof.
  split; [vm_compute; reflexivity|]. split; [vm_compute; reflexivity|].
  intros body members hint Hloads Hsources.
  destruct (try_json_wrapped body _ Hloads) as [Hwrapped Hplain].
  unfold expand_sources. cbn [SourceCode].
  rewrite Hwrapped, Hplain.
  change (lit "{" ++ (lit "{" ++ body ++ lit "}") ++ lit "}")
    with (123 :: (lit "{" ++ body ++ lit "}") ++ lit "}").
  change (lit "{" ++ body ++ lit "}") with (123 :: body ++ lit "}").
  cbv iota.
  destruct (Json.dict_get (lit "sources") members) as [sources|];
    [reflexivity | contradiction].
Qed.

Lemma expand_sources_round_trip_witness :
  let body := qlit "'sources': {'A.sol': {'content': 'X'}}" in
  expand_sources
    {| SourceCode := Some (lit "{" ++ (lit "{" ++ body ++ lit "}") ++ lit "}");
       ContractName := None |}
  = Returned [{| path := lit "A.sol"; text := lit "X" |}].
Proof.
  cbv zeta.
  destruct expand_sources_round_trip as [_ [_ H]].
  assert (L : { members | Json.loads (lit "{" ++ qlit "'sources': {'A.sol': {'content': 'X'}}" ++ lit "}")
                          = Returned (Json.JObject members) /\
                          Json.dict_get (lit "sources") members <> None }).
  { eexists. split; [vm_compute; reflexivity | vm_compute; discriminate]. }
  destruct L as [members [Hloads Hsources]].
  rewrite (H _ members None Hloads Hsources). vm_compute. reflexivity.
Defined.






(** * Further properties of the code *)

(** ** The scanner: transfer calls and the relation between its lists *)

Lemma splitlines_head_prefix (s l : str) (ls : list str) :
  splitlines s = l :: ls -> exists post, s = l ++ post.
Proof.
  revert l ls; induction s as [|c rest IH]; intros l ls; cbn [splitlines];
    [discriminate|].
  destruct (is_linebreak c).
  - intros E. injection E as <- _. exists (c :: rest). reflexivity.
  - destruct (splitlines rest) as [|l1 ls1] eqn:Hrest.
    + intros E. injection E as <- _. exists rest. reflexivity.
    + intros E. injection E as <- _.
      destruct (IH l1 ls1 eq_refl) as [post ->]. exists post. reflexivity.
Qed.

(** Every line of [splitlines] is a piece of the text. *)
Lemma splitlines_substring (s l : str) :
  In l (splitlines s) -> exists pre post, s = pre ++ l ++ post.
Proof.
  remember (length s) as n eqn:Hn. revert s l Hn.
  induction n as [n IH] using lt_wf_ind. intros s l Hn.
  destruct s as [|c rest]; cbn [splitlines]; [contradiction|].
  destruct (is_linebreak c).
  - intros [<- | Hin].
    + exists [], (c :: rest). reflexivity.
    + destruct rest as [|c' rest']; [contradiction|].
      destruct ((c =? 13) && (c' =? 10)).
      * destruct (IH (length rest') ltac:(subst n; cbn [length]; lia)
                     rest' l eq_refl Hin) as [pre [post ->]].
        exists (c :: c' :: pre), post. reflexivity.
      * destruct (IH (length (c' :: rest')) ltac:(subst n; cbn [length]; lia)
                     (c' :: rest') l eq_refl Hin) as [pre [post E]].
        exists (c :: pre), post. rewrite E. reflexivity.
  - destruct (splitlines rest) as [|l1 ls1] eqn:Hrest.
    + intros [<- | []]. exists [], rest. reflexivity.
    + intros [<- | Hin].
      * destruct (splitlines_head_prefix rest l1 ls1 Hrest) as [post ->].
        exists [], post. reflexivity.
      * destruct (IH (length rest) ltac:(subst n; cbn [length]; lia)
                     rest l eq_refl) as [pre [post E]].
        { rewrite Hrest. right. exact Hin. }
        exists (c :: pre), post. rewrite E. reflexivity.
Qed.

Lemma contains_substring (needle pre l post : str) :
  contains needle l = true -> contains needle (pre ++ l ++ post) = true.
Proof.
  rewrite !contains_spec. intros [a [b ->]].
  exists (pre ++ a), (b ++ post). rewrite <- !app_assoc. reflexivity.
Qed.

Lemma slice_In {A} (lo hi : nat) (xs : list A) (x : A) :
  In x (slice lo hi xs) -> In x xs.
Proof.
  unfold slice. intros H.
  rewrite <- (firstn_skipn lo xs). apply in_or_app. right.
  rewrite <- (firstn_skipn (hi - lo) (skipn lo xs)). apply in_or_app.
  left. exact H.
Qed.

(** A text that does not contain the guard marker has no guarded window. *)
Lemma no_guard_in_text (text : str) (i : nat) :
  contains (lit "onlyOwner") text = false ->
  guard_in_window (splitlines text) i = false.
Proof.
  intros Hno. unfold guard_in_window.
  destruct (existsb has_guard _) eqn:E; [|reflexivity].
  apply existsb_exists in E. destruct E as [l [Hin Hg]].
  assert (Hl : In l (splitlines text)) by (apply (slice_In _ _ _ _ Hin)).
  destruct (splitlines_substring text l Hl) as [pre [post E]].
  unfold has_guard in Hg.
  rewrite E, (contains_substring _ pre l post Hg) in Hno. discriminate.
Qed.

Lemma filter_and_incl {A} (p q : A -> bool) (xs : list A) :
  incl (filter (fun x => p x && q x) xs) (filter p xs) /\
  (length (filter (fun x => p x && q x) xs) <= length (filter p xs))%nat.
Proof.
  split.
  - intros x Hx. apply filter_In in Hx. destruct Hx as [Hin Hpq].
    apply andb_true_iff in Hpq. apply filter_In. tauto.
  - induction xs as [|x xs IH]; [reflexivity|]. cbn [filter].
    destruct (p x); cbn [andb].
    + destruct (q x); cbn [length]; lia.
    + exact IH.
Qed.

Section ScannerExtras.

Variable uni_alnum : char -> bool.

Local Abbreviation is_init := (is_init_line uni_alnum).
Local Abbreviation is_call := (is_setter_call uni_alnum).
Local Abbreviation grep := (grep_patterns uni_alnum).
Local Abbreviation is_transfer :=
  (Re.search uni_alnum (lit "\b_transfer\s*\(")).

Lemma is_transfer_spec (line : str) :
  is_transfer line = true <-> call_shaped uni_alnum (lit "_transfer") line.
Proof.
  apply (search_call_shaped uni_alnum (lit "_transfer") line 95 (lit "transfer"));
    [reflexivity | reflexivity | vm_compute; reflexivity].
Qed.

(** X1: a line is recorded in [internal_transfer_calls], under its number
    and trimmed, exactly when it has a call-shaped occurrence of [_transfer]
    (the name at a word boundary, optional whitespace, a parenthesis); no
    guard in or near the line changes that. *)
Theorem grep_patterns_transfer_calls (text : str) :
  let lines := splitlines text in
  let f := grep text in
  internal_transfer_calls f
  = map located
        (filter (fun il => is_transfer (snd il)) (enumerate 1 lines)) /\
  (forall line,
      is_transfer line = true <-> call_shaped uni_alnum (lit "_transfer") line) /\
  (forall i line,
      In (i, line) (enumerate 1 lines) ->
      call_shaped uni_alnum (lit "_transfer") line ->
      In (located (i, line)) (internal_transfer_calls f)) /\
  (forall entry,
      In entry (internal_transfer_calls f) ->
      exists i line,
        In (i, line) (enumerate 1 lines) /\ entry = located (i, line) /\
        call_shaped uni_alnum (lit "_transfer") line).
Proof.
  cbv zeta. rewrite (grep_patterns_lists uni_alnum text).
  cbn [internal_transfer_calls].
  split; [reflexivity|]. split; [exact is_transfer_spec|]. split.
  - intros i line Hin Hcall. apply in_map_iff. exists (i, line).
    split; [reflexivity|]. apply filter_In. split; [exact Hin|].
    apply is_transfer_spec. exact Hcall.
  - intros entry Hentry. apply in_map_iff in Hentry.
    destruct Hentry as [[i line] [<- Hin]]. apply filter_In in Hin.
    destruct Hin as [Hin Ht]. exists i, line.
    repeat split; auto. apply is_transfer_spec. exact Ht.
Qed.

(** X2: every entry of [unprotected_inits] is an entry of
    [init_functions], and there are no more of the former than of the
    latter. *)
Theorem grep_patterns_unprotected_among_inits (text : str) :
  let f := grep text in
  incl (unprotected_inits f) (init_functions f) /\
  (length (unprotected_inits f) <= length (init_functions f))%nat.
Proof.
  cbv zeta. rewrite (grep_patterns_lists uni_alnum text).
  cbn [unprotected_inits init_functions].
  destruct (filter_and_incl (fun il : nat * str => is_init (snd il))
              (fun il => negb (guard_in_window (splitlines text) (fst il)))
              (enumerate 1 (splitlines text))) as [Hincl Hlen].
  split.
  - apply incl_map. exact Hincl.
  - rewrite !length_map. exact Hlen.
Qed.

(** X3: in a text that nowhere contains [onlyOwner], every init line is
    reported unprotected, and every line contributes one role-setter entry
    for each setter name it calls. *)
Theorem grep_patterns_without_guard (text : str) :
  contains (lit "onlyOwner") text = false ->
  let lines := splitlines text in
  let f := grep text in
  unprotected_inits f = init_functions f /\
  unprotected_role_setters f
  = flat_map (fun il =>
                flat_map (fun setter =>
                            if is_call setter (snd il) then [located il] else [])
                         ROLE_SETTERS)
             (enumerate 1 lines).
Proof.
  intros Hno. cbv zeta. rewrite (grep_patterns_lists uni_alnum text).
  cbn [unprotected_inits init_functions unprotected_role_setters].
  split.
  - f_equal. apply filter_ext. intros il.
    rewrite (no_guard_in_text text (fst il) Hno). apply andb_true_r.
  - apply flat_map_ext. intros il. unfold setter_entries.
    apply flat_map_ext. intros setter.
    rewrite (no_guard_in_text text (fst il) Hno), andb_true_r. reflexivity.
Qed.

End ScannerExtras.

Lemma grep_patterns_without_guard_witness :
  let text := lit "function initialize() {" ++ [10] ++ lit "updatePauser(a);" in
  contains (lit "onlyOwner") text = false /\
  unprotected_inits (grep_patterns (fun _ => false) text)
  = init_functions (grep_patterns (fun _ => false) text).
Proof.
  cbv zeta. split; [vm_compute; reflexivity|].
  apply (grep_patterns_without_guard (fun _ => false)). vm_compute. reflexivity.
Defined.

(** ** The resolver: what a present and an absent result say *)

Section ResolverExtras.

Variable get_storage_at : str -> Z -> outcome bytes.

Lemma checksum_encode_length (body : str) :
  length body = 40%nat -> length (Eth.checksum_encode body) = 42%nat.
Proof.
  intros Hlen. unfold Eth.checksum_encode.
  rewrite length_app, length_map, length_combine, hex_length,
    keccak_text_length, Hlen.
  reflexivity.
Qed.

(** X4: a present result comes from a successful read of a 32-byte word at
    the implementation slot of the normalised address, is the checksummed
    form of the word's last twenty bytes, and is itself a well-formed
    address: 42 characters, prefix [0x], unchanged by normalisation. *)
Theorem detect_proxy_and_impl_present (proxy_addr impl : str) :
  detect_proxy_and_impl get_storage_at proxy_addr = Some impl ->
  (exists a raw,
      Eth.to_checksum_address proxy_addr = Returned a /\
      get_storage_at a implementation_slot_number = Returned raw /\
      length raw = 32%nat /\
      impl = Eth.checksum_encode (hex (last_n 20 raw))) /\
  length impl = 42%nat /\
  startswith (lit "0x") impl = true /\
  Eth.to_checksum_address impl = Returned impl.
Proof.
  intros H.
  assert (Hread : exists a raw,
             Eth.to_checksum_address proxy_addr = Returned a /\
             get_storage_at a implementation_slot_number = Returned raw /\
             length raw = 32%nat /\
             impl = Eth.checksum_encode (hex (last_n 20 raw))).
  { unfold detect_proxy_and_impl, read_implementation in H.
    rewrite implementation_slot_value in H.
    destruct (Eth.to_checksum_address proxy_addr) as [a|]; cbn [bind] in H;
      [|discriminate].
    destruct (get_storage_at a implementation_slot_number) as [raw|] eqn:Hraw;
      cbn [bind] in H; [|discriminate].
    destruct raw as [|b raw]; [discriminate|].
    destruct (Nat.eqb_spec (length (b :: raw)) 32) as [Hlen|]; [|discriminate].
    rewrite to_checksum_address_hex in H
      by (apply last_n_split; rewrite Hlen; lia).
    cbn [bind] in H. injection H as <-.
    exists a, (b :: raw). auto. }
  split; [exact Hread|].
  destruct Hread as [a [raw [_ [_ [Hlen ->]]]]].
  assert (Hlow : length (last_n 20 raw) = 20%nat)
    by (apply last_n_split; rewrite Hlen; lia).
  assert (Hhex : length (hex (last_n 20 raw)) = 40%nat)
    by (rewrite hex_length, Hlow; reflexivity).
  split; [apply checksum_encode_length; exact Hhex|].
  split; [reflexivity|].
  apply (to_checksum_address_idem (hex (last_n 20 raw))).
  apply to_checksum_address_hex. exact Hlow.
Qed.

(** X5: for an address that is not forty hex digits with an optional
    prefix, the result is absent whatever the node would answer. *)
Theorem detect_proxy_and_impl_invalid_address (proxy_addr : str) (e : exn) :
  Eth.to_checksum_address proxy_addr = Raised e ->
  detect_proxy_and_impl get_storage_at proxy_addr = None.
Proof.
  intros H. unfold detect_proxy_and_impl, read_implementation.
  rewrite H. reflexivity.
Qed.

End ResolverExtras.

Lemma detect_proxy_and_impl_present_witness :
  detect_proxy_and_impl (fun _ _ => Returned Sample.zero_word) Sample.audited
  = Some (lit "0x0000000000000000000000000000000000000000") /\
  length (lit "0x0000000000000000000000000000000000000000") = 42%nat.
Proof.
  assert (H : detect_proxy_and_impl (fun _ _ => Returned Sample.zero_word)
                                    Sample.audited
              = Some (lit "0x0000000000000000000000000000000000000000")).
  { vm_compute. reflexivity. }
  split; [exact H|].
  apply (detect_proxy_and_impl_present _ _ _ H).
Defined.

Lemma detect_proxy_and_impl_invalid_address_witness :
  Eth.to_checksum_address (lit "0x1234") = Raised ValueError /\
  detect_proxy_and_impl (fun _ _ => Returned Sample.zero_word) (lit "0x1234")
  = None.
Proof.
  assert (H : Eth.to_checksum_address (lit "0x1234") = Raised ValueError).
  { vm_compute. reflexivity. }
  split; [exact H|].
  apply (detect_proxy_and_impl_invalid_address _ _ _ H).
Defined.

(** ** The retriever: empty ranges, the shape of the windows, failures *)

Lemma to_checksum_address_raises (value : str) (e : exn) :
  Eth.to_checksum_address value = Raised e -> e = ValueError.
Proof.
  unfold Eth.to_checksum_address. destruct (_ && _); [discriminate|].
  intros E. injection E as <-. reflexivity.
Qed.

Lemma range_raises (start stop step : Z) (e : exn) :
  range start stop step = Raised e -> step = 0 /\ e = ValueError.
Proof.
  unfold range. destruct (Z.eqb_spec step 0) as [->|].
  - intros E. injection E as <-. auto.
  - destruct (0 <? step); cbv zeta iota beta; discriminate.
Qed.

Lemma classify_all_raised (logs : list RawLog) (acc : Logs) (e : exn) :
  classify_all logs acc = Raised e ->
  e = IndexError /\ Exists (fun l => topics l = []) logs.
Proof.
  revert acc; induction logs as [|l logs IH]; intros acc; cbn [classify_all];
    [discriminate|].
  destruct (topics l) as [|first rest] eqn:Ht.
  - unfold classify. rewrite Ht. cbn [bind]. intros E. injection E as <-.
    split; [reflexivity | constructor; exact Ht].
  - rewrite (classify_extend acc l) by (rewrite Ht; discriminate).
    cbn [bind]. intros E. apply IH in E. destruct E as [-> Hex].
    split; [reflexivity | apply Exists_cons_tl; exact Hex].
Qed.

Lemma classify_all_without_topics (logs : list RawLog) (acc : Logs) :
  Exists (fun l => topics l = []) logs ->
  classify_all logs acc = Raised IndexError.
Proof.
  intros H. destruct (classify_all logs acc) as [acc'|e] eqn:E.
  - apply classify_all_returned in E. destruct E as [Hall _].
    apply Exists_exists in H. destruct H as [l [Hin Hl]].
    rewrite Forall_forall in Hall. destruct (Hall l Hin Hl).
  - apply classify_all_raised in E. destruct E as [-> _]. reflexivity.
Qed.

Lemma nth_error_seq_some (n start k j : nat) :
  nth_error (seq start n) k = Some j -> j = (start + k)%nat /\ (k < n)%nat.
Proof.
  revert start k; induction n as [|n IH]; intros start k; cbn [seq].
  - destruct k; discriminate.
  - destruct k as [|k]; cbn [nth_error].
    + intros E. injection E as <-. lia.
    + intros E. apply IH in E. lia.
Qed.

Section RetrieverExtras.

Variable get_logs : str -> Z -> Z -> outcome (list RawLog).

Lemma scan_windows_raised (addr : str) (to_block step : Z) (starts : list Z)
      (acc : Logs) (ws : list (Z * Z)) (e : exn) :
  scan_windows get_logs addr to_block step starts acc = (ws, Raised e) ->
  e = IndexError /\
  exists before w after logs,
    ws = before ++ [w] /\
    map (window to_block step) starts = ws ++ after /\
    get_logs addr (fst w) (snd w) = Returned logs /\
    Exists (fun l => topics l = []) logs.
Proof.
  revert acc ws; induction starts as [|start rest IH]; intros acc ws;
    cbn [scan_windows map]; [discriminate|].
  fold (window to_block step start).
  destruct (get_logs addr start _) as [logs|e'] eqn:Hq.
  - destruct (classify_all logs acc) as [acc'|e'] eqn:Hc.
    + destruct (scan_windows get_logs addr to_block step rest acc')
        as [qs res] eqn:Hrest.
      intros E. injection E as <- ->. apply IH in Hrest.
      destruct Hrest as [-> [before [w [after [logs' [-> [Hall [Hw Hex]]]]]]]].
      split; [reflexivity|].
      exists (window to_block step start :: before), w, after, logs'.
      rewrite Hall. auto.
    + intros E. injection E as <- <-.
      apply classify_all_raised in Hc. destruct Hc as [-> Hex].
      split; [reflexivity|].
      exists [], (window to_block step start),
             (map (window to_block step) rest), logs.
      cbn [window fst snd]. auto.
  - destruct (scan_windows get_logs addr to_block step rest acc)
      as [qs res] eqn:Hrest.
    intros E. injection E as <- ->. apply IH in Hrest.
    destruct Hrest as [-> [before [w [after [logs' [-> [Hall [Hw Hex]]]]]]]].
    split; [reflexivity|].
    exists (window to_block step start :: before), w, after, logs'.
    rewrite Hall. auto.
Qed.

(** X6: when [from_block] is above [to_block] (and the window size is
    positive), the retriever sends no query and returns three empty lists. *)
Theorem scan_logs_empty_range (address addr : str) (from_block to_block step : Z) :
  Eth.to_checksum_address address = Returned addr ->
  0 < step -> to_block < from_block ->
  scan_logs get_logs address from_block to_block step = ([], Returned no_logs).
Proof.
  intros Haddr Hstep Hlt. unfold scan_logs.
  rewrite Haddr, (range_positive _ _ _ Hstep).
  destruct (Z.leb_spec (to_block + 1) from_block); [|lia]. reflexivity.
Qed.

(** X7: in a completed retrieval over a non-empty range with a positive
    window size there are [(to_block - from_block) / step + 1] queries; the
    [k]-th starts at [from_block + k * step], every one but the last spans
    exactly [step] blocks, and the last ends at [to_block]. *)
Theorem scan_logs_window_shape (address : str) (from_block to_block step : Z)
        (ws : list (Z * Z)) (out : Logs) :
  scan_logs get_logs address from_block to_block step = (ws, Returned out) ->
  0 < step -> from_block <= to_block ->
  Z.of_nat (length ws) = (to_block - from_block) / step + 1 /\
  forall (k : nat) (a b : Z),
    nth_error ws k = Some (a, b) ->
    a = from_block + Z.of_nat k * step /\
    ((S k < length ws)%nat -> b = a + step - 1) /\
    (S k = length ws -> b = to_block).
Proof.
  intros Hscan Hstep Hle.
  apply scan_logs_returned in Hscan.
  destruct Hscan as [addr [starts [_ [Hrange [-> _]]]]].
  rewrite (range_positive _ _ _ Hstep) in Hrange. injection Hrange as <-.
  destruct (Z.leb_spec (to_block + 1) from_block); [lia|].
  replace (to_block + 1 - from_block - 1) with (to_block - from_block) by lia.
  set (q := (to_block - from_block) / step).
  assert (Hq : 0 <= q) by (apply Z.div_pos; lia).
  assert (Hlo : step * q <= to_block - from_block)
    by (apply Z.mul_div_le; lia).
  assert (Hhi : to_block - from_block < step * (q + 1)).
  { pose proof (Z.mul_succ_div_gt (to_block - from_block) step Hstep) as G.
    fold q in G. lia. }
  rewrite !length_map, length_seq, Z2Nat.id by lia.
  split; [reflexivity|].
  intros k a b Hk. rewrite map_map, nth_error_map in Hk.
  destruct (nth_error (seq 0 (Z.to_nat (q + 1))) k) as [j|] eqn:Hj;
    [|discriminate].
  apply nth_error_seq_some in Hj. destruct Hj as [-> Hkn].
  cbn [option_map window Nat.add] in Hk. injection Hk as <- <-.
  split; [reflexivity|].
  assert (Hk1 : Z.of_nat k < q + 1) by lia.
  split.
  - intros Hnotlast. apply Z.min_r. nia.
  - intros Hlast. apply Z.min_l. nia.
Qed.

(** X8: the retriever raises only in three ways.  An address that is not
    well formed and a window size of zero raise [ValueError] before any
    query; otherwise the only exception is [IndexError], raised when the
    window queried last returned a log without topics, and the queries sent
    are then the windows up to that one. *)
Theorem scan_logs_failures (address : str) (from_block to_block step : Z)
        (ws : list (Z * Z)) (e : exn) :
  scan_logs get_logs address from_block to_block step = (ws, Raised e) ->
  (e = ValueError /\ ws = [] /\
   (Eth.to_checksum_address address = Raised ValueError \/ step = 0)) \/
  (e = IndexError /\
   exists addr starts before w after logs,
     Eth.to_checksum_address address = Returned addr /\
     range from_block (to_block + 1) step = Returned starts /\
     ws = before ++ [w] /\
     map (window to_block step) starts = ws ++ after /\
     get_logs addr (fst w) (snd w) = Returned logs /\
     Exists (fun l => topics l = []) logs).
Proof.
  unfold scan_logs.
  destruct (Eth.to_checksum_address address) as [addr|e'] eqn:Haddr.
  - destruct (range from_block (to_block + 1) step) as [starts|e'] eqn:Hrange.
    + intros H. right. apply scan_windows_raised in H.
      destruct H as [-> [before [w [after [logs [-> [Hall [Hw Hex]]]]]]]].
      split; [reflexivity|].
      exists addr, starts, before, w, after, logs. repeat split; auto.
    + intros E. injection E as <- <-. left.
      apply range_raises in Hrange. destruct Hrange as [-> ->].
      split; [reflexivity|]. split; [reflexivity|]. right. reflexivity.
  - intros E. injection E as <- <-. left.
    pose proof (to_checksum_address_raises address e' Haddr) as ->.
    split; [reflexivity|]. split; [reflexivity|]. left. reflexivity.
Qed.

Lemma scan_windows_completes (addr : str) (to_block step : Z) (starts : list Z)
      (acc : Logs) :
  (exists ws out,
      scan_windows get_logs addr to_block step starts acc = (ws, Returned out)) <->
  (forall w logs,
      In w (map (window to_block step) starts) ->
      get_logs addr (fst w) (snd w) = Returned logs ->
      Forall (fun l => topics l <> []) logs).
Proof.
  revert acc; induction starts as [|start rest IH]; intros acc;
    cbn [scan_windows map].
  - split; [intros _ w logs [] | intros _; eauto].
  - fold (window to_block step start). split.
    + intros [ws [out H]] w logs [<- | Hin] Hq.
      * cbn [window fst snd] in Hq. rewrite Hq in H.
        destruct (classify_all logs acc) as [acc'|e] eqn:Hc; [|discriminate].
        apply classify_all_returned in Hc. tauto.
      * destruct (get_logs addr start _) as [logs0|e0].
        -- destruct (classify_all logs0 acc) as [acc'|e]; [|discriminate].
           destruct (scan_windows get_logs addr to_block step rest acc')
             as [qs res] eqn:Hrest.
           injection H as _ ->.
           apply (proj1 (IH acc') (ex_intro _ qs (ex_intro _ out Hrest)) w logs Hin Hq).
        -- destruct (scan_windows get_logs addr to_block step rest acc)
             as [qs res] eqn:Hrest.
           injection H as _ ->.
           apply (proj1 (IH acc) (ex_intro _ qs (ex_intro _ out Hrest)) w logs Hin Hq).
    + intros Hgood.
      assert (Hrest : forall w logs,
                 In w (map (window to_block step) rest) ->
                 get_logs addr (fst w) (snd w) = Returned logs ->
                 Forall (fun l => topics l <> []) logs).
      { intros w logs Hin. apply Hgood. right. exact Hin. }
      destruct (get_logs addr start _) as [logs0|e0] eqn:Hq.
      * rewrite (classify_all_total logs0 acc)
          by (apply (Hgood (window to_block step start)); [left; reflexivity | exact Hq]).
        destruct (proj2 (IH (extend acc logs0)) Hrest) as [ws [out ->]]. eauto.
      * destruct (proj2 (IH acc) Hrest) as [ws [out ->]]. eauto.
Qed.

(** X9: for a well-formed address and a non-zero window size, the
    retrieval completes exactly when every log returned for one of its
    windows has a first topic; a single log without topics aborts it. *)
Theorem scan_logs_completes_iff (address addr : str)
        (from_block to_block step : Z) (starts : list Z) :
  Eth.to_checksum_address address = Returned addr ->
  range from_block (to_block + 1) step = Returned starts ->
  (exists ws out,
      scan_logs get_logs address from_block to_block step = (ws, Returned out)) <->
  (forall w logs,
      In w (map (window to_block step) starts) ->
      get_logs addr (fst w) (snd w) = Returned logs ->
      Forall (fun l => topics l <> []) logs).
Proof.
  intros Haddr Hrange. unfold scan_logs. rewrite Haddr, Hrange.
  apply scan_windows_completes.
Qed.

End RetrieverExtras.

Lemma scan_logs_empty_range_witness :
  scan_logs Sample.flaky_get_logs Sample.audited 10 9 50000
  = ([], Returned no_logs).
Proof.
  assert (Ha : { a | Eth.to_checksum_address Sample.audited = Returned a }).
  { eexists. vm_compute. reflexivity. }
  destruct Ha as [a Ha].
  apply (scan_logs_empty_range Sample.flaky_get_logs _ a 10 9 50000 Ha);
    reflexivity.
Defined.

Lemma scan_logs_window_shape_witness :
  exists ws out,
    scan_logs Sample.flaky_get_logs Sample.audited 0 149999 50000
    = (ws, Returned out) /\
    Z.of_nat (length ws) = 3.
Proof.
  assert (H : { r | scan_logs Sample.flaky_get_logs Sample.audited 0 149999 50000
                    = (fst r, Returned (snd r)) }).
  { eexists (_, _). vm_compute. reflexivity. }
  destruct H as [[ws out] H]. cbn [fst snd] in H.
  exists ws, out. split; [exact H|].
  destruct (scan_logs_window_shape Sample.flaky_get_logs _ 0 149999 50000 ws out H)
    as [Hlen _]; [reflexivity | discriminate|].
  exact Hlen.
Defined.

Lemma scan_logs_failures_witness :
  scan_logs Sample.flaky_get_logs Sample.audited 0 149999 0
  = ([], Raised ValueError) /\
  (ValueError = ValueError /\ @nil (Z * Z) = [] /\
   (Eth.to_checksum_address Sample.audited = Raised ValueError \/ 0 = 0) \/
   ValueError = IndexError /\
   exists addr starts before w after logs,
     Eth.to_checksum_address Sample.audited = Returned addr /\
     range 0 (149999 + 1) 0 = Returned starts /\
     [] = before ++ [w] /\
     map (window 149999 0) starts = [] ++ after /\
     Sample.flaky_get_logs addr (fst w) (snd w) = Returned logs /\
     Exists (fun l => topics l = []) logs).
Proof.
  assert (H : scan_logs Sample.flaky_get_logs Sample.audited 0 149999 0
              = ([], Raised ValueError)).
  { vm_compute. reflexivity. }
  split; [exact H|].
  apply (scan_logs_failures Sample.flaky_get_logs _ _ _ _ _ _ H).
Defined.

Lemma scan_logs_completes_iff_witness :
  range 0 (149999 + 1) 50000 = Returned [0; 50000; 100000] /\
  exists ws out,
    scan_logs Sample.flaky_get_logs Sample.audited 0 149999 50000
    = (ws, Returned out).
Proof.
  split; [reflexivity|].
  assert (Ha : { a | Eth.to_checksum_address Sample.audited = Returned a }).
  { eexists. vm_compute. reflexivity. }
  destruct Ha as [a Ha].
  apply (scan_logs_completes_iff Sample.flaky_get_logs _ a 0 149999 50000
           [0; 50000; 100000] Ha eq_refl).
  intros w logs _. apply flaky_logs_have_topics.
Defined.

(** ** The expander: failures, empty results, distinct paths, deep wrapping *)

Import More.

Lemma write_entry_returned (rel : str) (meta : Json.value) (u : SourceUnit) :
  write_entry rel meta = Returned u ->
  entry_well_formed meta /\ u = unit_of (rel, meta).
Proof.
  unfold write_entry, entry_well_formed, unit_of, entry_text. cbn [fst snd].
  destruct meta as [| | | | |fields]; try discriminate.
  destruct (Json.dict_get (lit "content") fields) as [[| | |content| |]|] eqn:Hc;
    try discriminate; intros E; injection E as <-.
  - split; [|reflexivity]. exists fields. split; [reflexivity|].
    right. exists content. exact Hc.
  - split; [|reflexivity]. exists fields. split; [reflexivity|].
    left. exact Hc.
Qed.


Lemma write_entries_returned (entries : list (str * Json.value))
      (paths units : list SourceUnit) :
  write_entries entries paths = Returned units ->
  Forall (fun entry => entry_well_formed (snd entry)) entries /\
  units = paths ++ map unit_of entries.
Proof.
  revert paths; induction entries as [|[rel meta] entries IH]; intros paths;
    cbn [write_entries map].
  - intros E. injection E as <-. rewrite app_nil_r. auto.
  - destruct (write_entry rel meta) as [u|e] eqn:Hu; cbn [bind]; [|discriminate].
    apply write_entry_returned in Hu. destruct Hu as [Hwf ->].
    intros E. apply IH in E. destruct E as [Hall ->].
    rewrite <- app_assoc. auto.
Qed.



(** X11: the expander returns no unit in two cases only: the payload is
    absent or empty, or it parses to an object whose [sources] is the empty
    mapping. *)
Theorem expand_sources_no_unit (it : item) :
  expand_sources it = Returned [] <->
  SourceCode it = None \/ SourceCode it = Some [] \/
  exists src members,
    SourceCode it = Some src /\
    try_json src = Json.JObject members /\
    Json.dict_get (lit "sources") members = Some (Json.JObject []).
Proof.
  unfold expand_sources. split.
  - destruct (SourceCode it) as [[|c src]|] eqn:Hsrc; auto.
    intros H. right. right.
    destruct (try_json (c :: src)) as [| | | | |members] eqn:Hjson;
      try discriminate.
    destruct (Json.dict_get (lit "sources") members) as [sources|] eqn:Hs;
      [|discriminate].
    destruct sources as [| | | | |entries]; try discriminate.
    apply write_entries_returned in H. destruct H as [_ H].
    destruct entries; [|discriminate].
    exists (c :: src), members. auto.
  - intros [-> | [-> | [src [members [-> [Hjson Hs]]]]]]; try reflexivity.
    destruct src as [|c src]; [reflexivity|]. rewrite Hjson, Hs. reflexivity.
Qed.

(** *** Keys of parsed objects are distinct *)




(** A later member with the same key replaces the value and keeps the
    place of the first. *)
Lemma dict_get_set {V} (k k' : str) (v : V) (d : list (str * V)) :
  Json.dict_get k' (Json.dict_set k v d)
  = if str_eqb k' k then Some v else Json.dict_get k' d.
Proof.
  induction d as [|[k0 v0] d IH]; cbn [Json.dict_set Json.dict_get].
  - destruct (str_eqb k' k); reflexivity.
  - destruct (str_eqb k k0) eqn:E; cbn [Json.dict_get].
    + apply str_eqb_eq in E. subst k0.
      destruct (str_eqb k' k); reflexivity.
    + rewrite IH. destruct (str_eqb k' k0) eqn:E0; [|reflexivity].
      apply str_eqb_eq in E0. subst k0.
      destruct (str_eqb k' k) eqn:E1; [|reflexivity].
      apply str_eqb_eq in E1. subst k'. rewrite str_eqb_refl in E. discriminate.
Qed.








(** *** Only one layer of braces is removed *)






(** ** The orchestrator: failures, the default range, the address argument *)

Lemma lower_range (c : char) :
  (65 <=? ascii_lower c) && (ascii_lower c <=? 90) = false.
Proof.
  unfold ascii_lower.
  destruct (Z.leb_spec 65 c); destruct (Z.leb_spec c 90); cbn [andb];
    apply andb_false_iff;
    first [ left; apply Z.leb_gt; lia | right; apply Z.leb_gt; lia ].
Qed.

Lemma lower_idem (c : char) : ascii_lower (ascii_lower c) = ascii_lower c.
Proof. unfold ascii_lower at 1. rewrite lower_range. reflexivity. Qed.

Lemma lower_first_two (a b : char) :
  (48 =? ascii_lower a) = (48 =? a) /\
  (120 =? ascii_lower b) = ((120 =? b) || (88 =? b)) /\
  (88 =? ascii_lower b) = false.
Proof.
  unfold ascii_lower.
  destruct (Z.leb_spec 65 a); destruct (Z.leb_spec a 90);
    destruct (Z.leb_spec 65 b); destruct (Z.leb_spec b 90); cbn [andb];
    repeat split;
    repeat match goal with
           | |- context [?x =? ?y] => destruct (Z.eqb_spec x y)
           end; cbn [orb]; try reflexivity; lia.
Qed.

Lemma remove_0x_prefix_lower (v : str) :
  Eth.remove_0x_prefix (map ascii_lower v)
  = map ascii_lower (Eth.remove_0x_prefix v).
Proof.
  unfold Eth.remove_0x_prefix.
  change (lit "0x") with [48; 120]. change (lit "0X") with [48; 88].
  destruct v as [|a [|b t]]; cbn [map startswith].
  - reflexivity.
  - rewrite !andb_false_r. reflexivity.
  - rewrite !andb_true_r.
    destruct (lower_first_two a b) as [Ha [Hb HB]].
    rewrite Ha, Hb, HB, !andb_false_r, orb_false_r.
    destruct (48 =? a); cbn [andb orb]; [|reflexivity].
    destruct (120 =? b); cbn [orb]; [reflexivity|].
    destruct (88 =? b); reflexivity.
Qed.

Lemma to_checksum_address_lower (v : str) :
  Eth.to_checksum_address (map ascii_lower v) = Eth.to_checksum_address v.
Proof.
  unfold Eth.to_checksum_address.
  rewrite remove_0x_prefix_lower, map_map.
  rewrite (map_ext (fun c => ascii_lower (ascii_lower c)) ascii_lower lower_idem).
  reflexivity.
Qed.

(** Addresses that differ only in the case of their letters normalise to
    the same checksummed address, or are rejected together. *)
Lemma to_checksum_address_case (v w : str) :
  map ascii_lower v = map ascii_lower w ->
  Eth.to_checksum_address v = Eth.to_checksum_address w.
Proof.
  intros H. rewrite <- (to_checksum_address_lower v),
              <- (to_checksum_address_lower w), H.
  reflexivity.
Qed.

(** Case analysis on the stage at which a run is said to have failed. *)
Ltac stages :=
  repeat match goal with
         | H : _ \/ _ |- _ => destruct H
         | H : exists _, _ |- _ => destruct H
         | H : _ /\ _ |- _ => destruct H
         | H : Returned _ = Raised _ |- _ => discriminate H
         | H : Raised _ = Returned _ |- _ => discriminate H
         | H : Returned _ = Returned _ |- _ => injection H as ?; subst
         | H : Raised _ = Raised _ |- _ => injection H as ?; subst
         | H : ?x = _, H' : ?x = _ |- _ => rewrite H in H'
         | H : snd ?x = _, H' : ?x = _ |- _ => rewrite H' in H; cbn [snd] in H
         end.

Section OrchestratorExtras.

Variable get_storage_at : str -> Z -> outcome bytes.
Variable get_logs : str -> Z -> Z -> outcome (list RawLog).
Variable block_number : outcome Z.
Variable uni_alnum : char -> bool.
Variable fetch_source_from_etherscan : str -> str -> outcome item.

Local Abbreviation run := (main get_storage_at get_logs block_number uni_alnum
                                fetch_source_from_etherscan).

(** X14: a run fails in five ways only, each with the exception of the
    stage that failed: the address argument is not an address, the block
    height cannot be read, the source fetch fails, the expansion fails, or
    the log retrieval fails.  The storage read of the resolver is not among
    them. *)
Theorem main_failures (args : Args) (e : exn) :
  run args = Raised e <->
  Eth.to_checksum_address (arg_address args) = Raised e \/
  exists address,
    Eth.to_checksum_address (arg_address args) = Returned address /\
    (block_number = Raised e \/
     exists latest,
       block_number = Returned latest /\
       let target :=
         or_str (detect_proxy_and_impl get_storage_at address) address in
       (fetch_source_from_etherscan target (arg_chain args) = Raised e \/
        exists it,
          fetch_source_from_etherscan target (arg_chain args) = Returned it /\
          (expand_sources it = Raised e \/
           exists sources,
             expand_sources it = Returned sources /\
             snd (scan_logs get_logs address
                            (or_int (arg_from_block args)
                                    (Z.max 0 (latest - 200000)))
                            (or_int (arg_to_block args) latest) 50000)
             = Raised e))).
Proof.
  unfold main. cbv zeta.
  destruct (Eth.to_checksum_address (arg_address args)) as [address|e0];
    cbn [bind].
  2:{ split.
      - intros E. injection E as <-. left. reflexivity.
      - intros H. stages. reflexivity. }
  destruct block_number as [latest|e0]; cbn [bind].
  2:{ split.
      - intros E. injection E as <-. right. exists address.
        split; [reflexivity|]. left. reflexivity.
      - intros H. stages. reflexivity. }
  destruct (fetch_source_from_etherscan _ (arg_chain args)) as [it|e0] eqn:Hf;
    cbn [bind].
  2:{ split.
      - intros E. injection E as <-. right. exists address.
        split; [reflexivity|]. right. exists latest. split; [reflexivity|].
        left. exact Hf.
      - intros H. stages. reflexivity. }
  destruct (expand_sources it) as [sources|e0] eqn:Hx; cbn [bind].
  2:{ split.
      - intros E. injection E as <-. right. exists address.
        split; [reflexivity|]. right. exists latest. split; [reflexivity|].
        right. exists it. split; [exact Hf|]. left. exact Hx.
      - intros H. stages. reflexivity. }
  destruct (scan_logs get_logs address _ _ 50000) as [queries [logs|e0]] eqn:Hs;
    cbn [bind snd].
  - split; [discriminate|]. intros H. stages.
  - split.
    + intros E. injection E as <-. right. exists address.
      split; [reflexivity|]. right. exists latest. split; [reflexivity|].
      right. exists it. split; [exact Hf|]. right. exists sources.
      split; [exact Hx|]. rewrite Hs. reflexivity.
    + intros H. stages. reflexivity.
Qed.

(** X15: a completed run without block bounds (or with bounds 0) at a
    height of at least 200000 sends exactly five log queries: four windows
    of 50000 blocks from [latest - 200000] and a fifth that holds the block
    [latest] alone. *)
Theorem main_default_queries (args : Args) (audit : Audit) (latest : Z) :
  block_number = Returned latest ->
  run args = Returned audit ->
  (arg_from_block args = None \/ arg_from_block args = Some 0) ->
  (arg_to_block args = None \/ arg_to_block args = Some 0) ->
  200000 <= latest ->
  audit_queries audit
  = [(latest - 200000, latest - 150001); (latest - 150000, latest - 100001);
     (latest - 100000, latest - 50001); (latest - 50000, latest - 1);
     (latest, latest)].
Proof.
  intros Hlatest Hrun Hfrom Hto Hbig.
  destruct (main_returned _ _ _ _ _ args audit Hrun)
    as [latest' [it [_ [Hl [Hf [Ht [_ [_ [_ [_ Hscan]]]]]]]]]].
  rewrite Hlatest in Hl. injection Hl as <-.
  assert (Hf' : audit_from_block audit = latest - 200000).
  { rewrite Hf. destruct Hfrom as [-> | ->]; cbn; lia. }
  assert (Ht' : audit_to_block audit = latest).
  { rewrite Ht. destruct Hto as [-> | ->]; reflexivity. }
  rewrite Hf', Ht' in Hscan.
  apply scan_logs_returned in Hscan.
  destruct Hscan as [addr [starts [_ [Hrange [-> _]]]]].
  rewrite range_positive in Hrange by lia. injection Hrange as <-.
  destruct (Z.leb_spec (latest + 1) (latest - 200000)); [lia|].
  replace (latest + 1 - (latest - 200000) - 1) with 200000 by lia.
  change (Z.to_nat (200000 / 50000 + 1)) with 5%nat.
  cbn [seq map]. unfold window.
  repeat (f_equal; try lia).
Qed.

(** X16: the audited address does not depend on the case of the letters
    of the address argument: two argument sets that differ only there run
    alike. *)
Theorem main_address_case_insensitive (args args' : Args) :
  map ascii_lower (arg_address args) = map ascii_lower (arg_address args') ->
  arg_chain args = arg_chain args' ->
  arg_from_block args = arg_from_block args' ->
  arg_to_block args = arg_to_block args' ->
  run args = run args'.
Proof.
  intros Haddr Hchain Hfrom Hto. unfold main.
  rewrite (to_checksum_address_case _ _ Haddr), Hchain, Hfrom, Hto.
  reflexivity.
Qed.

End OrchestratorExtras.

Lemma main_default_queries_witness :
  exists audit,
    main (fun _ _ => Returned Sample.zero_word) (fun _ _ _ => Returned [])
         (Returned 300000) (fun _ => false) (fun _ _ => Returned Sample.source)
         Sample.args = Returned audit /\
    audit_queries audit
    = [(100000, 149999); (150000, 199999); (200000, 249999);
       (250000, 299999); (300000, 300000)].
Proof.
  assert (H : { audit | main (fun _ _ => Returned Sample.zero_word)
                             (fun _ _ _ => Returned [])
                             (Returned 300000) (fun _ => false)
                             (fun _ _ => Returned Sample.source)
                             Sample.args = Returned audit }).
  { eexists. vm_compute. reflexivity. }
  destruct H as [audit Haudit]. exists audit. split; [exact Haudit|].
  apply (main_default_queries _ _ _ _ _ Sample.args audit 300000 eq_refl Haudit).
  - right. reflexivity.
  - right. reflexivity.
  - discriminate.
Defined.

Lemma main_address_case_insensitive_witness :
  main (fun _ _ => Returned Sample.zero_word) (fun _ _ _ => Returned [])
       (Returned 300000) (fun _ => false) (fun _ _ => Returned Sample.source)
       {| arg_address := lit "0X5AAEB6053F3E94C9B9A09F33669435E7EF1BEAED";
          arg_chain := lit "mainnet";
          arg_from_block := Some 0;
          arg_to_block := Some 0 |}
  = main (fun _ _ => Returned Sample.zero_word) (fun _ _ _ => Returned [])
         (Returned 300000) (fun _ => false) (fun _ _ => Returned Sample.source)
         Sample.args.
Proof.
  apply main_address_case_insensitive; reflexivity.
Defined.

(** ** The lookahead window across two files *)





Section WindowAcrossFiles.

Variable uni_alnum : char -> bool.


End WindowAcrossFiles.


(** ** Reading the sources back, and the report *)

Lemma splitlines_line_feed (y : str) : splitlines (10 :: y) = [] :: splitlines y.
Proof.
  cbn [splitlines]. change (is_linebreak 10) with true. cbv iota.
  destruct y as [|c' rest']; reflexivity.
Qed.

(** Text-mode reading turns every line ending into a line feed and leaves
    the lines as they are. *)
Lemma splitlines_universal_newlines (s : str) :
  splitlines (universal_newlines s) = splitlines s.
Proof.
  remember (length s) as n eqn:Hn. revert s Hn.
  induction n as [n IH] using lt_wf_ind. intros s Hn.
  destruct s as [|c rest]; [reflexivity|].
  cbn [universal_newlines]. destruct (Z.eqb_spec c 13) as [->|Hc].
  - rewrite splitlines_line_feed. cbn [splitlines].
    change (is_linebreak 13) with true. cbv iota. f_equal.
    destruct rest as [|c' rest']; [reflexivity|].
    change (13 =? 13) with true. cbn [andb].
    destruct (c' =? 10).
    + apply (IH (length rest') ltac:(subst n; cbn [length]; lia) rest' eq_refl).
    + apply (IH (length (c' :: rest')) ltac:(subst n; cbn [length]; lia)
                (c' :: rest') eq_refl).
  - pose proof (IH (length rest) ltac:(subst n; cbn [length]; lia) rest eq_refl)
      as Hrest.
    cbn [splitlines]. destruct (is_linebreak c).
    + f_equal.
      assert (Hnot : (c =? 13) = false) by (apply Z.eqb_neq; exact Hc).
      rewrite Hnot. cbn [andb].
      destruct rest as [|c' rest']; [reflexivity|].
      destruct (universal_newlines (c' :: rest')) as [|d u] eqn:Hu.
      * cbn [universal_newlines] in Hu. destruct (c' =? 13); discriminate.
      * exact Hrest.
    + rewrite Hrest. reflexivity.
Qed.

Section ReadBack.

Variable uni_alnum : char -> bool.

Lemma grep_patterns_universal_newlines (s : str) :
  grep_patterns uni_alnum (universal_newlines s) = grep_patterns uni_alnum s.
Proof.
  unfold grep_patterns. rewrite splitlines_universal_newlines. reflexivity.
Qed.

Variable get_storage_at : str -> Z -> outcome bytes.
Variable get_logs : str -> Z -> Z -> outcome (list RawLog).
Variable block_number : outcome Z.
Variable fetch_source_from_etherscan : str -> str -> outcome item.

Local Abbreviation run := (main get_storage_at get_logs block_number uni_alnum
                                fetch_source_from_etherscan).

Lemma main_grep (args : Args) (audit : Audit) :
  run args = Returned audit ->
  audit_grep audit
  = grep_patterns uni_alnum
      (join [10; 10]
            (map (fun u => universal_newlines (text u)) (audit_sources audit))).
Proof.
  unfold main.
  destruct (Eth.to_checksum_address (arg_address args)) as [address|];
    cbn [bind]; [|discriminate].
  destruct block_number as [latest|]; cbn [bind]; [|discriminate].
  destruct (fetch_source_from_etherscan _ (arg_chain args)) as [it|];
    cbn [bind]; [|discriminate].
  destruct (expand_sources it) as [sources|]; cbn [bind]; [|discriminate].
  destruct (scan_logs get_logs address _ _ 50000) as [queries [logs|]];
    cbn [bind]; [|discriminate].
  intros E. injection E as <-. reflexivity.
Qed.

(** X18: when the source of a completed run is a single file, the findings
    are those of the text of that file as it was written: reading it back
    in text mode changes line endings but no line. *)
Theorem main_single_file_findings (args : Args) (audit : Audit) (u : SourceUnit) :
  run args = Returned audit ->
  audit_sources audit = [u] ->
  audit_grep audit = grep_patterns uni_alnum (text u).
Proof.
  intros Hrun Hone. rewrite (main_grep args audit Hrun), Hone.
  cbn [map join]. apply grep_patterns_universal_newlines.
Qed.

End ReadBack.

Lemma main_single_file_findings_witness :
  exists audit,
    main (fun _ _ => Returned Sample.zero_word) (fun _ _ _ => Returned [])
         (Returned 300000) (fun _ => false) (fun _ _ => Returned Sample.source)
         Sample.args = Returned audit /\
    audit_grep audit = grep_patterns (fun _ => false) (lit "contract C {}").
Proof.
  assert (H : { audit | main (fun _ _ => Returned Sample.zero_word)
                             (fun _ _ _ => Returned [])
                             (Returned 300000) (fun _ => false)
                             (fun _ _ => Returned Sample.source)
                             Sample.args = Returned audit /\
                        audit_sources audit
                        = [{| path := lit "C.sol"; text := lit "contract C {}" |}] }).
  { eexists. split; vm_compute; reflexivity. }
  destruct H as [audit [Haudit Hsources]]. exists audit. split; [exact Haudit|].
  apply (main_single_file_findings _ _ _ _ _ Sample.args audit _ Haudit Hsources).
Defined.

Lemma some_eq {A} (a b : A) : Some a = Some b -> a = b.
Proof. intros E. injection E as E. exact E. Qed.

(** X19: the report shows of each list of findings its length and its
    first ten entries, of each list of events the length and the block and
    transaction of the first ten, and of the Slither text the first 5000
    characters; two sets of findings that agree on these give the same
    report. *)
Theorem write_report_shows_first_ten (meta : ReportMeta) (f f' : ReportFindings) :
  map (fun item => shown (snd item)) (grep_items (report_grep f))
  = map (fun item => shown (snd item)) (grep_items (report_grep f')) ->
  map (fun item => (length (snd item),
                    map (fun ev => (block ev, tx ev)) (firstn 10 (snd item))))
      (logs_items (report_logs f))
  = map (fun item => (length (snd item),
                      map (fun ev => (block ev, tx ev)) (firstn 10 (snd item))))
        (logs_items (report_logs f')) ->
  option_map (firstn 5000) (report_slither f)
  = option_map (firstn 5000) (report_slither f') ->
  write_report meta f = write_report meta f'.
Proof.
  intros Hgrep Hlogs Hsl. unfold write_report.
  assert (G : flat_map grep_section (grep_items (report_grep f))
              = flat_map grep_section (grep_items (report_grep f'))).
  { clear Hlogs Hsl. revert Hgrep.
    unfold grep_items, shown, grep_section. cbn [map snd fst flat_map].
    generalize 10%nat. intros ten Hgrep.
    injection Hgrep as L1 F1 L2 F2 L3 F3 L4 F4.
    rewrite L1, F1, L2, F2, L3, F3, L4, F4. reflexivity. }
  assert (L : flat_map logs_section (logs_items (report_logs f))
              = flat_map logs_section (logs_items (report_logs f'))).
  { clear Hgrep Hsl G. revert Hlogs.
    assert (K : forall xs ys : list LogEvent,
               map (fun ev => (block ev, tx ev)) xs
               = map (fun ev => (block ev, tx ev)) ys ->
               flat_map (fun it => lit "  - blk " ++ format_int (block it) ++
                                   lit " tx " ++ tx it ++ [10]) xs
               = flat_map (fun it => lit "  - blk " ++ format_int (block it) ++
                                     lit " tx " ++ tx it ++ [10]) ys).
    { induction xs as [|x l IH]; intros [|y l0]; cbn [map flat_map];
        try discriminate; [reflexivity|].
      intros E. injection E as Hb Ht Hrest.
      rewrite Hb, Ht, (IH l0 Hrest). reflexivity. }
    unfold logs_items, logs_section. cbn [map snd fst flat_map].
    generalize 10%nat. intros ten Hlogs.
    injection Hlogs as L1 F1 L2 F2 L3 F3.
    rewrite L1, L2, L3, (K _ _ F1), (K _ _ F2), (K _ _ F3). reflexivity. }
  assert (S : match report_slither f with
              | Some (c :: sl) =>
                  [10] ++ lit "## Slither Summary (truncated)" ++ [10; 10] ++
                  lit "```" ++ [10] ++ firstn 5000 (c :: sl) ++ [10] ++
                  lit "```" ++ [10]
              | _ => []
              end
              = match report_slither f' with
                | Some (c :: sl) =>
                    [10] ++ lit "## Slither Summary (truncated)" ++ [10; 10] ++
                    lit "```" ++ [10] ++ firstn 5000 (c :: sl) ++ [10] ++
                    lit "```" ++ [10]
                | _ => []
                end).
  { destruct (report_slither f) as [[|c sl]|];
      destruct (report_slither f') as [[|c' sl']|]; cbn [option_map] in Hsl;
      try discriminate; try reflexivity.
    apply some_eq in Hsl. rewrite Hsl. reflexivity. }
  rewrite G, L, S. reflexivity.
Qed.

Lemma write_report_shows_first_ten_witness :
  write_report sample_meta (sample_findings (lit "L11: a") (lit "00"))
  = write_report sample_meta (sample_findings (lit "L12: b") (lit "ff")).
Proof.
  apply (write_report_shows_first_ten sample_meta
           (sample_findings (lit "L11: a") (lit "00"))
           (sample_findings (lit "L12: b") (lit "ff")));
    vm_compute; reflexivity.
Defined.
